(** * SPF_Flatter: the mechanism parser and the recursive flattener

    A shallow embedding of [spfParser.js].  JavaScript strings are modelled
    as [string], one [ascii] per code unit (code units 0..255); arrays as
    lists; the [Set] of the deduplication pass as a [gset string]; the DNS
    resolver as a state-passing oracle over an arbitrary world, which
    resolves, rejects with an error object, or rejects with [null] or
    [undefined]. *)

From Stdlib Require Import Ascii.
From Stdlib Require String.
From stdpp Require Import base list strings gmap pretty.

(** ** JavaScript string primitives *)

Module Js.

(** [s.split(sep)] for a one-character separator: never empty. *)
Fixpoint split (sep : ascii) (s : string) : list string :=
  match s with
  | EmptyString => [""]
  | String c s' =>
      if Ascii.eqb c sep then "" :: split sep s'
      else match split sep s' with
           | h :: t => String c h :: t
           | [] => [String c ""]
           end
  end.

(** [parts.join(sep)] *)
Definition join (sep : string) (parts : list string) : string :=
  String.concat sep parts.

(** [s.includes(c)] for a one-character needle. *)
Fixpoint includes (c : ascii) (s : string) : bool :=
  match s with
  | EmptyString => false
  | String d s' => Ascii.eqb d c || includes c s'
  end.

(** [s.startsWith(p)] *)
Definition startsWith (p s : string) : bool := String.prefix p s.

(** The class [\s] of a regular expression, on code units below 256:
    TAB, LF, VT, FF, CR, SPACE and NBSP. *)
Definition isSpace (c : ascii) : bool :=
  let n := nat_of_ascii c in
  ((9 <=? n) && (n <=? 13)) || (n =? 32) || (n =? 160).

Definition headIsSpace (s : string) : bool :=
  match s with
  | EmptyString => false
  | String c _ => isSpace c
  end.

(** [s.split(/\s+/)]: every maximal run of white space is one separator; a
    run at either end leaves an empty piece there. *)
Fixpoint splitSpaces (s : string) : list string :=
  match s with
  | EmptyString => [""]
  | String c s' =>
      if isSpace c then
        if headIsSpace s' then splitSpaces s' else "" :: splitSpaces s'
      else match splitSpaces s' with
           | h :: t => String c h :: t
           | [] => [String c ""]
           end
  end.

(** JavaScript completions: a call returns a value or throws. *)
Inductive Completion (A : Type) : Type :=
  | Normal (a : A)
  | Throw (message : string).
Global Arguments Normal {A} a.
Global Arguments Throw {A} message.

(** The two values no property can be read of. *)
Inductive Nullish : Type := null | undefined.

Definition nullishText (reason : Nullish) : string :=
  match reason with
  | null => "null"
  | undefined => "undefined"
  end.

(** The message of the TypeError that reading [property] of a nullish
    value raises, in the wording of V8. *)
Definition typeErrorMessage (reason : Nullish) (property : string) : string :=
  "Cannot read properties of " +:+ nullishText reason +:+
  " (reading '" +:+ property +:+ "')".

End Js.
Import Js.

(** ** Mechanisms *)

Record Mechanism : Type := mkMechanism {
  qualifier : string;
  type : string;
  value : string
}.

Global Instance Mechanism_eq_dec : EqDecision Mechanism.
Proof. solve_decision. Defined.

(** ** parseSpf *)

(** The [forEach] callback of [parseSpf], from the split on [:] on: [type]
    holds the token without its qualifier. *)
Definition typeAndValue (qualifier type : string) : Mechanism :=
  let parts := split ":" type in
  if bool_decide (1 < length parts) then
    mkMechanism qualifier (default "" (head parts)) (join ":" (tail parts))
  else if includes "=" type then
    let partsWithEquals := split "=" type in
    mkMechanism qualifier (default "" (partsWithEquals !! 0))
                          (default "" (partsWithEquals !! 1))
  else if bool_decide (type = "all") then
    mkMechanism qualifier type "all"
  else
    mkMechanism qualifier type "".

(** The whole callback: the qualifier check first. *)
Definition parseMechanism (mechanismString : string) : Mechanism :=
  match mechanismString with
  | String c rest =>
      if bool_decide (c ∈ ["+"; "-"; "~"; "?"]%char)
      then typeAndValue (String c "") rest
      else typeAndValue "+" mechanismString
  | EmptyString => typeAndValue "+" mechanismString
  end.

(** [spfRecord.split(/\s+/).filter(part => part.length > 0)] *)
Definition mechanismStrings (spfRecord : string) : list string :=
  filter (λ part, 0 < String.length part) (splitSpaces spfRecord).

(** What [parsedMechanisms] holds when the [forEach] is over. *)
Definition parsedMechanisms (spfRecord : string) : list Mechanism :=
  parseMechanism <$> mechanismStrings spfRecord.

Definition parseSpf (spfRecord : string) : Completion (list Mechanism) :=
  if bool_decide (spfRecord = "") then
    Throw "Invalid SPF record provided. Must be a non-empty string."
  else
    Normal (parsedMechanisms spfRecord).

(** ** JSON.stringify on mechanisms *)

Module JSON.

Definition dquote : ascii := "034"%char.
Definition backslash : ascii := "092"%char.

Definition hexDigit (n : nat) : ascii :=
  nth n ["0"; "1"; "2"; "3"; "4"; "5"; "6"; "7"; "8"; "9";
         "a"; "b"; "c"; "d"; "e"; "f"]%char "0"%char.

(** One code unit of QuoteJSONString: the two-character escapes, [\u00XX]
    for the other control characters, the character itself otherwise. *)
Definition quoteChar (c : ascii) : string :=
  let n := nat_of_ascii c in
  if n =? 34 then String backslash (String dquote "")
  else if n =? 92 then String backslash (String backslash "")
  else if n =? 8 then String backslash "b"
  else if n =? 12 then String backslash "f"
  else if n =? 10 then String backslash "n"
  else if n =? 13 then String backslash "r"
  else if n =? 9 then String backslash "t"
  else if n <? 32 then
    String backslash
      (String "u" (String "0" (String "0"
         (String (hexDigit (n / 16)) (String (hexDigit (n mod 16)) "")))))
  else String c "".

Fixpoint quoteBody (s : string) : string :=
  match s with
  | EmptyString => ""
  | String c s' => quoteChar c +:+ quoteBody s'
  end.

Definition quote (s : string) : string :=
  String dquote (quoteBody s +:+ String dquote "").

(** [JSON.stringify(mech)] for an object with the three string properties
    [qualifier], [type] and [value], in that order. *)
Definition stringify (mech : Mechanism) : string :=
  "{" +:+ quote "qualifier" +:+ ":" +:+ quote (qualifier mech) +:+
  "," +:+ quote "type" +:+ ":" +:+ quote (type mech) +:+
  "," +:+ quote "value" +:+ ":" +:+ quote (value mech) +:+ "}".

(** The inverse direction, read off a text that starts inside a string
    literal: the string up to its closing quote, and the text after it. *)
Definition unescape (e : ascii) : option ascii :=
  let n := nat_of_ascii e in
  if n =? 34 then Some dquote
  else if n =? 92 then Some backslash
  else if n =? 98 then Some (ascii_of_nat 8)
  else if n =? 102 then Some (ascii_of_nat 12)
  else if n =? 110 then Some (ascii_of_nat 10)
  else if n =? 114 then Some (ascii_of_nat 13)
  else if n =? 116 then Some (ascii_of_nat 9)
  else None.

Definition hexValue (c : ascii) : nat :=
  let n := nat_of_ascii c in
  if (48 <=? n) && (n <=? 57) then n - 48
  else if (97 <=? n) && (n <=? 102) then n - 87
  else 0.

Fixpoint unquoteBody (s : string) : option (string * string) :=
  match s with
  | EmptyString => None
  | String c s' =>
      if nat_of_ascii c =? 34 then Some ("", s')
      else if nat_of_ascii c =? 92 then
        match s' with
        | String e s'' =>
            if nat_of_ascii e =? 117 then
              match s'' with
              | String _ (String _ (String h (String l r))) =>
                  match unquoteBody r with
                  | Some (body, rest) =>
                      Some (String (ascii_of_nat (16 * hexValue h + hexValue l)) body,
                            rest)
                  | None => None
                  end
              | _ => None
              end
            else
              match unescape e, unquoteBody s'' with
              | Some c', Some (body, rest) => Some (String c' body, rest)
              | _, _ => None
              end
        | EmptyString => None
        end
      else
        match unquoteBody s' with
        | Some (body, rest) => Some (String c body, rest)
        | None => None
        end
  end.

End JSON.

(** ** The resolver and the lookup budget *)

(** What [dnsResolver.resolveTxt(hostname)] settles to: the TXT records, each
    a list of chunks; a rejection with a reason whose properties can be
    read, an error object as the resolver of Node gives, with its code; or
    a rejection with [null] or [undefined], as a resolver installed through
    [setDnsResolver] may give. (A resolution with anything but lists of
    chunks makes [map] or [join] throw an error object inside the [try]
    block: the [catch] block treats it as it treats [Rejected].) *)
Inductive TxtAnswer : Type :=
  | Resolved (records : list (list string))
  | Rejected (code : string)
  | RejectedNullish (reason : Nullish).

Definition MAX_DNS_LOOKUPS : nat := 10.

(** [{ flattenedMechanisms, newLookupCount }] *)
Definition Flattened : Type := list Mechanism * nat.

(** The variables of one activation of [recursiveFlattenSpf]. *)
Record Locals : Type := mkLocals {
  flattenedMechanisms : list Mechanism;
  dnsLookups : nat;
  finalAllMechanism : option Mechanism
}.

(** The second loop of [recursiveFlattenSpf]: [seen] holds the JSON text of
    the mechanisms already kept. *)
Fixpoint removeDuplicates (mechs uniqueMechanisms : list Mechanism)
    (seen : gset string) : list Mechanism :=
  match mechs with
  | [] => uniqueMechanisms
  | mech :: rest =>
      let mechString := JSON.stringify mech in
      if decide (mechString ∈ seen) then removeDuplicates rest uniqueMechanisms seen
      else removeDuplicates rest (uniqueMechanisms ++ [mech]) ({[mechString]} ∪ seen)
  end.

(** The code after the first loop: duplicates, then the level's own [all]. *)
Definition finishLevel (st : Locals) : Flattened :=
  let uniqueMechanisms := removeDuplicates (flattenedMechanisms st) [] ∅ in
  match finalAllMechanism st with
  | Some finalAll =>
      let filteredUniqueMechanisms :=
        filter (λ m, type m ≠ "all") uniqueMechanisms in
      (filteredUniqueMechanisms ++ [finalAll], dnsLookups st)
  | None => (uniqueMechanisms, dnsLookups st)
  end.

Section Flattener.

Context {World : Type}.

(** The injected resolver: one call may change the world it reads. *)
Variable resolveTxt : string → World → TxtAnswer * World.

(** The state a flatten call runs in: the resolver's world and the hostnames
    passed to [resolveTxt] so far, oldest first. *)
Record Env : Type := mkEnv {
  world : World;
  queries : list string
}.

(** An asynchronous call, run to completion: [None] when the model's fuel
    ran out, otherwise how the call completed and the state it left. *)
Definition Run (A : Type) : Type := Env → option (Completion A * Env).

Definition ret {A} (a : A) : Run A := λ e, Some (Normal a, e).

Definition bind {A B} (m : Run A) (k : A → Run B) : Run B :=
  λ e, match m e with
       | None => None
       | Some (Throw message, e') => Some (Throw message, e')
       | Some (Normal a, e') => k a e'
       end.

Definition liftCompletion {A} (c : Completion A) : Run A := λ e, Some (c, e).

Notation "'let*' x ':=' m 'in' k" := (bind m (λ x, k))
  (at level 10, x pattern, m at level 100, k at level 200).

(** The [catch] block reads [error.code] before anything else: on a
    rejection with [null] or [undefined] that read throws, and the
    exception leaves the function. *)
Definition resolveSpfTxtRecord (hostname : string) (currentDnsLookups : nat)
    : Run (list string * nat) :=
  λ e,
    if decide (MAX_DNS_LOOKUPS ≤ currentDnsLookups) then
      Some (Normal ([], currentDnsLookups), e)
    else
      let '(answer, w) := resolveTxt hostname (world e) in
      let e' := mkEnv w (queries e ++ [hostname]) in
      match answer with
      | Resolved records =>
          let spfRecords :=
            filter (λ record, startsWith "v=spf1" record) (join "" <$> records) in
          Some (Normal (spfRecords, currentDnsLookups + 1), e')
      | Rejected _ => Some (Normal ([], currentDnsLookups + 1), e')
      | RejectedNullish reason =>
          Some (Throw (typeErrorMessage reason "code"), e')
      end.

Section Level.

(** The recursive call, left open. *)
Variable self : list Mechanism → string → nat → Run Flattened.

(** [for (const record of resolvedSpfRecords)] of the [include] branch. *)
Fixpoint includeRecords (resolvedSpfRecords : list string)
    (hostnameToLookup : string) (st : Locals) : Run Locals :=
  match resolvedSpfRecords with
  | [] => ret st
  | record :: rest =>
      let* subParsedSpf := liftCompletion (parseSpf record) in
      let* (subFlattened, subNewLookupCount) :=
        self subParsedSpf hostnameToLookup (dnsLookups st) in
      includeRecords rest hostnameToLookup
        (mkLocals
           (flattenedMechanisms st ++ filter (λ m, type m ≠ "v") subFlattened)
           subNewLookupCount (finalAllMechanism st))
  end.

(** [for (const mechanism of parsedSpf)]: [inl] when the loop runs to its
    end, [inr] when a [redirect] returns from the function. *)
Fixpoint forMechanisms (parsedSpf : list Mechanism) (st : Locals)
    : Run (Locals + Flattened) :=
  match parsedSpf with
  | [] => ret (inl st)
  | mechanism :: rest =>
      if decide (type mechanism = "v") then forMechanisms rest st
      else if decide (type mechanism = "redirect") then
        let hostnameToLookup := value mechanism in
        let* (resolvedSpfRecords, newLookupCount) :=
          resolveSpfTxtRecord hostnameToLookup (dnsLookups st) in
        match resolvedSpfRecords with
        | first :: _ =>
            let* subParsedSpf := liftCompletion (parseSpf first) in
            let* (subFlattened, subNewLookupCount) :=
              self subParsedSpf hostnameToLookup newLookupCount in
            ret (inr (subFlattened, subNewLookupCount))
        | [] => ret (inr ([], newLookupCount))
        end
      else if decide (type mechanism = "include") then
        let hostnameToLookup := value mechanism in
        let* (resolvedSpfRecords, newLookupCount) :=
          resolveSpfTxtRecord hostnameToLookup (dnsLookups st) in
        let* st' :=
          includeRecords resolvedSpfRecords hostnameToLookup
            (mkLocals (flattenedMechanisms st) newLookupCount
                      (finalAllMechanism st)) in
        forMechanisms rest st'
      else if decide (type mechanism = "all") then
        forMechanisms rest
          (mkLocals (flattenedMechanisms st) (dnsLookups st) (Some mechanism))
      else
        forMechanisms rest
          (mkLocals (flattenedMechanisms st ++ [mechanism]) (dnsLookups st)
                    (finalAllMechanism st))
  end.

(** The body of [recursiveFlattenSpf]. *)
Definition flattenLevel (parsedSpf : list Mechanism) (domain : string)
    (currentDnsLookups : nat) : Run Flattened :=
  let* r := forMechanisms parsedSpf (mkLocals [] currentDnsLookups None) in
  match r with
  | inr result => ret result
  | inl st => ret (finishLevel st)
  end.

End Level.

(** [recursiveFlattenSpf] unrolled to a depth of [fuel] activations. *)
Fixpoint flattenFuel (fuel : nat)
    : list Mechanism → string → nat → Run Flattened :=
  match fuel with
  | 0 => λ _ _ _ _, None
  | S fuel' => flattenLevel (flattenFuel fuel')
  end.

(** An activation entered with [currentDnsLookups] lookups done nests at
    most [MAX_DNS_LOOKUPS - currentDnsLookups] activations below itself
    ([recursiveFlattenSpf_unfold] shows this depth loses nothing). *)
Definition recursiveFlattenSpf (parsedSpf : list Mechanism) (domain : string)
    (currentDnsLookups : nat) : Run Flattened :=
  flattenFuel (S (MAX_DNS_LOOKUPS - currentDnsLookups))
    parsedSpf domain currentDnsLookups.

Definition flattenSpf (parsedSpf : list Mechanism) (domain : string)
    : Run (list Mechanism) :=
  let initialDnsLookups := 0 in
  let* (flattenedMechanisms, newLookupCount) :=
    recursiveFlattenSpf parsedSpf domain initialDnsLookups in
  let vSpf1 :=
    List.find (λ mech, bool_decide (type mech = "v" ∧ value mech = "spf1"))
              parsedSpf in
  ret (match vSpf1 with
       | Some v => v :: flattenedMechanisms
       | None => flattenedMechanisms
       end).

End Flattener.

Global Arguments recursiveFlattenSpf : simpl never.
Global Arguments Env World : clear implicits.
Global Arguments Run World A : clear implicits.

(** A resolver stubbed with a table, as the test suite does: the answer
    registered for the hostname, a rejection for any other hostname. *)
Definition stubResolver (table : list (string * TxtAnswer))
    (hostname : string) (w : unit) : TxtAnswer * unit :=
  match List.find (λ entry, bool_decide (entry.1 = hostname)) table with
  | Some entry => (entry.2, w)
  | None => (Rejected "ENOTFOUND", w)
  end.

Definition noQueries : Env unit := mkEnv tt [].

Definition includedTable : list (string * TxtAnswer) :=
  [("included.com", Resolved [["v=spf1 ip4:5.6.7.8 -all"]])].

Definition redirectedTable : list (string * TxtAnswer) :=
  [("redirected.com", Resolved [["v=spf1 ip4:9.10.11.12 ?all"]])].

(** The table and the record of the lookup-limit test: ten includes that
    resolve, and one more. *)
Definition tenDomains : list (string * TxtAnswer) :=
  (λ i, ("domain" +:+ i +:+ ".com", Resolved [["v=spf1 ip4:1.1.1." +:+ i]]))
    <$> ["0"; "1"; "2"; "3"; "4"; "5"; "6"; "7"; "8"; "9"].

Definition overLimitTable : list (string * TxtAnswer) :=
  tenDomains ++ [("overlimit.com", Resolved [["v=spf1 ip4:9.9.9.9"]])].

Definition overLimitRecord : string :=
  "v=spf1 " +:+
  join " " ((λ entry, "include:" +:+ entry.1) <$> overLimitTable) +:+ " ~all".

Definition flattenText (table : list (string * TxtAnswer)) (spfRecord : string) :=
  match parseSpf spfRecord with
  | Normal parsed => flattenSpf (stubResolver table) parsed "example.com" noQueries
  | Throw message => Some (Throw message, noQueries)
  end.


(** ** The command line: the text of a flattened record *)

(** The callback of [flattened.map] in [runFlattening]. *)
Definition mechanismText (mech : Mechanism) : string :=
  let output := if bool_decide (qualifier mech = "+") then "" else qualifier mech in
  let output := output +:+ type mech in
  if bool_decide (value mech ≠ "") && bool_decide (value mech ≠ "all")
  then output +:+ (":" +:+ value mech)
  else output.

Definition flattenedSpfString (flattened : list Mechanism) : string :=
  join " " (mechanismText <$> flattened).

(** How [runFlattening] comes to its text: [Exited] when it reports an
    error and leaves with code 1, [Text] with [flattenedSpfString], which
    it then prints or writes to the output file. The lines it logs on
    the way are not part of the model. *)
Inductive CliOutcome : Type :=
  | Exited (message : string)
  | Text (flattenedSpfString : string).

(** ** spf-validator.js *)

Module Validator.

Definition MAX_DNS_LOOKUPS : nat := 10.

(** The class of [allowedChars]: letters, digits and [-._=:/+?~ ]. *)
Definition allowedChar (c : ascii) : bool :=
  let n := nat_of_ascii c in
  ((97 <=? n) && (n <=? 122)) || ((65 <=? n) && (n <=? 90)) ||
  ((48 <=? n) && (n <=? 57)) ||
  bool_decide (c ∈ ["-"; "."; "_"; "="; ":"; "/"; "+"; "?"; "~"; " "]%char).

(** [allowedChars.test(s)]: the expression is anchored at both ends. *)
Fixpoint allowedChars_test (s : string) : bool :=
  match s with
  | EmptyString => true
  | String c s' => allowedChar c && allowedChars_test s'
  end.

(** The callback of the [map] that builds [rawSpf]. *)
Definition rawMechanism (m : Mechanism) : string :=
  (if bool_decide (qualifier m ≠ "+") then qualifier m else "") +:+ type m +:+
  (if bool_decide (value m ≠ "") then ":" +:+ value m else "").

Definition rawSpf (parsedSpf : list Mechanism) : string :=
  join " " (rawMechanism <$> parsedSpf).

(** [if (condition) errors.push(message)] *)
Definition pushIf (condition : bool) (message : string) (errors : list string)
    : list string :=
  if condition then errors ++ [message] else errors.

Definition validateSpfSyntax (parsedSpf : list Mechanism) : list string :=
  let errors := [] in
  let mechanisms := type <$> parsedSpf in
  let errors :=
    pushIf (bool_decide (head mechanisms ≠ Some "v") ||
            bool_decide (value <$> head parsedSpf ≠ Some "spf1"))
           "The SPF record must start with 'v=spf1'." errors in
  let errors :=
    pushIf (negb (allowedChars_test (rawSpf parsedSpf)))
           "The SPF record contains invalid characters." errors in
  let errors :=
    pushIf (bool_decide (1 < length (filter (λ m, m = "redirect") mechanisms)))
           "Multiple 'redirect' mechanisms found. Only one is allowed." errors in
  let errors :=
    pushIf (bool_decide (1 < length (filter (λ m, m = "all") mechanisms)))
           "Multiple 'all' mechanisms found. Only one is allowed." errors in
  let errors :=
    pushIf (bool_decide ("all" ∈ mechanisms) &&
            bool_decide (last mechanisms ≠ Some "all"))
           "The 'all' mechanism must be the last mechanism in the SPF record."
           errors in
  let errors :=
    pushIf (bool_decide ("redirect" ∈ mechanisms) &&
            bool_decide (2 < length mechanisms))
           "The 'redirect' mechanism cannot be used with other mechanisms."
           errors in
  errors.

(** The object [verifySpf] resolves to. *)
Record Results : Type := mkResults {
  hasSpfRecord : bool;
  dnsLookups : nat;
  lookupLimitExceeded : bool;
  errors : list string;
  syntaxErrors : list string
}.

End Validator.

Section Callers.

Context {World : Type}.
Variable resolveTxt : string → World → TxtAnswer * World.

Notation "'let*' x ':=' m 'in' k" := (bind m (λ x, k))
  (at level 10, x pattern, m at level 100, k at level 200).

Definition verifySpf (domain : string) : Run World Validator.Results :=
  let* (spfRecords, newLookupCount) :=
    resolveSpfTxtRecord resolveTxt domain 0 in
  match spfRecords with
  | [] =>
      ret (Validator.mkResults false newLookupCount false
             ["No SPF record found for " +:+ domain +:+ "."] [])
  | first :: _ =>
      let errors :=
        Validator.pushIf (bool_decide (1 < length spfRecords))
          ("Multiple SPF records found for " +:+ domain +:+
           ". Only one is allowed.") [] in
      let* parsedSpf := liftCompletion (parseSpf first) in
      let syntaxErrors := Validator.validateSpfSyntax parsedSpf in
      let* (_, finalLookupCount) :=
        recursiveFlattenSpf resolveTxt parsedSpf domain newLookupCount in
      if bool_decide (Validator.MAX_DNS_LOOKUPS < finalLookupCount) then
        ret (Validator.mkResults true finalLookupCount true
               (errors ++
                ["SPF record for " +:+ domain +:+
                 " exceeds the 10 DNS lookup limit. Found " +:+
                 pretty finalLookupCount +:+ " lookups."])
               syntaxErrors)
      else
        ret (Validator.mkResults true finalLookupCount false errors syntaxErrors)
  end.

(** [runFlattening] up to the text it prints or writes: a call that throws
    is reported by the [catch] and leaves with code 1. *)
Definition runFlattening (domain : string) : Run World CliOutcome :=
  λ e,
    match
      (let* (spfRecords, _) :=
         resolveSpfTxtRecord resolveTxt domain 0 in
       match spfRecords with
       | [] => ret (Exited ("No SPF record found for " +:+ domain +:+ "."))
       | spfRecordString :: _ =>
           let* parsed := liftCompletion (parseSpf spfRecordString) in
           let* flattened := flattenSpf resolveTxt parsed domain in
           ret (Text (flattenedSpfString flattened))
       end) e
    with
    | Some (Throw message, e') => Some (Normal (Exited ("Error: " +:+ message)), e')
    | r => r
    end.

End Callers.

(** ** Vocabulary of the properties *)

(** A string holds white space; a string with its white space taken out. *)
Fixpoint anySpace (s : string) : bool :=
  match s with
  | EmptyString => false
  | String c s' => isSpace c || anySpace s'
  end.

Fixpoint withoutSpaces (s : string) : string :=
  match s with
  | EmptyString => ""
  | String c s' => if isSpace c then withoutSpaces s' else String c (withoutSpaces s')
  end.

(** Keep the first of any structurally identical mechanisms, in order. *)
Fixpoint keepFirst (mechs : list Mechanism) : list Mechanism :=
  match mechs with
  | [] => []
  | mech :: rest => mech :: filter (λ m, m ≠ mech) (keepFirst rest)
  end.

(** The literal [all] a level observes: the last mechanism of type [all]. *)
Definition ownAll (parsedSpf : list Mechanism) : option Mechanism :=
  last (filter (λ m, type m = "all") parsedSpf).

(** The [all] a level ends with: its own one, else the one it began with. *)
Definition ownAllOr (init : option Mechanism) (parsedSpf : list Mechanism)
    : option Mechanism :=
  match ownAll parsedSpf with
  | Some a => Some a
  | None => init
  end.

(** The mechanisms the first loop pushes as they are. *)
Definition pushedVerbatim (m : Mechanism) : Prop :=
  type m ≠ "v" ∧ type m ≠ "all".

Global Instance pushedVerbatim_dec m : Decision (pushedVerbatim m).
Proof. unfold pushedVerbatim. apply _. Defined.

Definition resolvesNothing (m : Mechanism) : Prop :=
  type m ≠ "redirect" ∧ type m ≠ "include".

(** What [flattenSpf] looks for in the record it was given. *)
Definition isVSpf1 (m : Mechanism) : Prop := type m = "v" ∧ value m = "spf1".

(** A record in the order a well-formed one has: [v=spf1] first if at all,
    then distinct mechanisms pushed as they are, then [all] if at all. *)
Definition inPlainOrder (parsedSpf : list Mechanism) : Prop :=
  ∃ vs body al,
    parsedSpf = vs ++ body ++ al ∧
    (vs = [] ∨ ∃ v, vs = [v] ∧ isVSpf1 v) ∧
    Forall pushedVerbatim body ∧ NoDup body ∧
    (al = [] ∨ ∃ a, al = [a] ∧ type a = "all").

Definition noVersion (mechs : list Mechanism) : Prop :=
  Forall (λ m, type m ≠ "v") mechs.

Definition LocalsOk (st : Locals) : Prop :=
  noVersion (flattenedMechanisms st) ∧
  ∀ a, finalAllMechanism st = Some a → type a = "all".

(** How the first loop was left: the lookup count it holds. *)
Definition countOf (r : Locals + Flattened) : nat :=
  match r with
  | inl st => dnsLookups st
  | inr result => result.2
  end.

Definition leftOk (r : Locals + Flattened) : Prop :=
  match r with
  | inl st => LocalsOk st
  | inr result => noVersion result.1
  end.

Section Accounting.

Context {World : Type}.
Variable resolveTxt : string → World → TxtAnswer * World.

(** Every rejection of the resolver carries a reason whose properties can
    be read, as those of the resolver of Node do. *)
Definition rejectsWithErrorObject : Prop :=
  ∀ hostname w reason w', resolveTxt hostname w ≠ (RejectedNullish reason, w').

(** The exception the [catch] block of [resolveSpfTxtRecord] raises at a
    rejection without such a reason. *)
Definition thrownByCatch (message : string) : Prop :=
  ∃ hostname w reason w',
    resolveTxt hostname w = (RejectedNullish reason, w') ∧
    message = typeErrorMessage reason "code".

(** A run entered with [n] lookups counted completes, issues the queries
    [new] and nothing else, and stays under the ceiling unless it was
    entered above it; when it returns it has counted each query once, and
    it throws nothing but the exception of that [catch] block. *)
Definition Accounted {A} (count : A → nat) (P : A → Prop) (n : nat)
    (e : Env World) (r : option (Completion A * Env World)) : Prop :=
  ∃ c e' new,
    r = Some (c, e') ∧
    queries e' = queries e ++ new ∧
    n + length new ≤ n `max` MAX_DNS_LOOKUPS ∧
    match c with
    | Normal a => count a = n + length new ∧ P a
    | Throw message => thrownByCatch message
    end.

(** What an activation needs of the calls it makes: they are made with a
    count between [lo] and the ceiling. *)
Definition Sound (lo : nat)
    (self : list Mechanism → string → nat → Run World Flattened) : Prop :=
  ∀ parsedSpf domain n e,
    lo ≤ n → n ≤ MAX_DNS_LOOKUPS →
    Accounted snd (λ r, noVersion r.1) n e (self parsedSpf domain n e).

(** The same, for a run that a second run repeats step for step. *)
Definition Agreeing {A} (count : A → nat) (P : A → Prop) (n : nat)
    (e : Env World) (r r' : option (Completion A * Env World)) : Prop :=
  Accounted count P n e r ∧ r' = r.

End Accounting.

(** A token starts with one of the qualifier characters. *)
Definition headIsQualifier (s : string) : bool :=
  match s with
  | EmptyString => false
  | String c _ => bool_decide (c ∈ ["+"; "-"; "~"; "?"]%char)
  end.

(** A mechanism the command line writes without a value. *)
Definition writtenBare (m : Mechanism) : Prop := value m = "" ∨ value m = "all".

(** A mechanism whose text reads back as itself: a qualifier of the four,
    a type that cannot be mistaken for a qualifier or split further, no
    white space, and a value that the text shows or the parser supplies. *)
Definition readsBack (m : Mechanism) : Prop :=
  qualifier m ∈ ["+"; "-"; "~"; "?"] ∧
  (qualifier m = "+" → headIsQualifier (type m) = false) ∧
  includes ":" (type m) = false ∧
  anySpace (type m) = false ∧ anySpace (value m) = false ∧
  (writtenBare m →
   includes "=" (type m) = false ∧
   (type m = "all" ↔ value m = "all") ∧
   ¬ (qualifier m = "+" ∧ type m = "")).

Global Instance writtenBare_dec m : Decision (writtenBare m).
Proof. unfold writtenBare. apply _. Defined.

Global Instance readsBack_dec m : Decision (readsBack m).
Proof. unfold readsBack. apply _. Defined.

(** A mechanism a flattened record is made of: no [v], nothing left to
    resolve. *)
Definition resolved (m : Mechanism) : Prop :=
  type m ≠ "v" ∧ type m ≠ "include" ∧ type m ≠ "redirect".

Definition FlatResult (mechs : list Mechanism) : Prop :=
  NoDup mechs ∧ Forall resolved mechs.

(** What a level that resolves nothing returns. *)
Definition plainBody (parsedSpf : list Mechanism) : list Mechanism :=
  match ownAll parsedSpf with
  | Some a => keepFirst (filter pushedVerbatim parsedSpf) ++ [a]
  | None => keepFirst (filter pushedVerbatim parsedSpf)
  end.

(** Every character of the mechanism's fields is in the class of the
    validator's [allowedChars]. *)
Definition fieldsAllowed (m : Mechanism) : Prop :=
  Validator.allowedChars_test (qualifier m) ∧
  Validator.allowedChars_test (type m) ∧
  Validator.allowedChars_test (value m).

Global Instance fieldsAllowed_dec m : Decision (fieldsAllowed m).
Proof. unfold fieldsAllowed. apply _. Defined.

(** The records [validateSpfSyntax] has nothing to say about, characters
    apart: [v=spf1] first, then either one [redirect] and nothing else, or
    mechanisms with at most one [all], at the end. *)
Definition acceptedShape (parsedSpf : list Mechanism) : Prop :=
  ∃ v body al,
    parsedSpf = v :: body ++ al ∧ isVSpf1 v ∧
    Forall (λ m, type m ≠ "all") body ∧
    (al = [] ∨ ∃ a, al = [a] ∧ type a = "all") ∧
    (Forall (λ m, type m ≠ "redirect") (body ++ al) ∨
     ∃ r, body = [r] ∧ al = [] ∧ type r = "redirect").

(** The SPF records [resolveSpfTxtRecord] finds in an answer of the
    resolver. *)
Definition spfRecordsOf (answer : TxtAnswer) : list string :=
  match answer with
  | Resolved records =>
      filter (λ record, startsWith "v=spf1" record) (join "" <$> records)
  | Rejected _ => []
  | RejectedNullish _ => []
  end.

(** * Properties *)

(** ** Strings *)

Example parse_complex :
  parseSpf "v=spf1 include:_spf.example.com ip6:2001:0db8::/32 a ?mx -ptr exists:%{i}.spf.example.org ~all"
  = Normal [ mkMechanism "+" "v" "spf1";
             mkMechanism "+" "include" "_spf.example.com";
             mkMechanism "+" "ip6" "2001:0db8::/32";
             mkMechanism "+" "a" "";
             mkMechanism "?" "mx" "";
             mkMechanism "-" "ptr" "";
             mkMechanism "+" "exists" "%{i}.spf.example.org";
             mkMechanism "~" "all" "all" ].
Proof. vm_compute. reflexivity. Qed.


Lemma app_String_cons c (a b : string) : String c a +:+ b = String c (a +:+ b).
Proof. reflexivity. Qed.

Lemma app_String_nil (b : string) : "" +:+ b = b.
Proof. reflexivity. Qed.

Lemma app_String_assoc (a b c : string) : (a +:+ b) +:+ c = a +:+ (b +:+ c).
Proof.
  induction a as [|x a IH]; [reflexivity|].
  by rewrite !app_String_cons, IH.
Qed.

(** ** Splitting *)

Section SplitFacts.

Variable sep : ascii.

Lemma split_nonempty s : split sep s ≠ [].
Proof.
  destruct s as [|c s]; [done|]. cbn [split].
  destruct (Ascii.eqb c sep); [done|]. by destruct (split sep s).
Qed.

Lemma split_pieces s : Forall (λ piece, includes sep piece = false) (split sep s).
Proof.
  induction s as [|c s IH]; [by repeat constructor|]. cbn [split].
  destruct (Ascii.eqb c sep) eqn:Hc; [by constructor|].
  destruct (split sep s) as [|h t]; [by repeat constructor; cbn; rewrite Hc|].
  apply Forall_cons in IH as [Hh Ht]. constructor; [|done].
  cbn [includes]. by rewrite Hc, Hh.
Qed.

Lemma join_split s : join (String sep "") (split sep s) = s.
Proof.
  unfold join. induction s as [|c s IH]; [done|]. cbn [split].
  destruct (Ascii.eqb c sep) eqn:Hc.
  - apply Ascii.eqb_eq in Hc as ->.
    pose proof (split_nonempty s) as Hne.
    destruct (split sep s) as [|h t]; [done|].
    cbn [String.concat] in *. by rewrite IH.
  - destruct (split sep s) as [|h [|x t]]; cbn [String.concat] in *.
    + by rewrite <- IH.
    + by rewrite IH.
    + by rewrite app_String_cons, IH.
Qed.

Lemma split_single s : includes sep s = false → split sep s = [s].
Proof.
  induction s as [|c s IH]; [done|]. cbn [includes split].
  destruct (Ascii.eqb c sep); [done|]. cbn [orb]. intros Hs.
  by rewrite (IH Hs).
Qed.

Lemma split_several s : includes sep s = true → 1 < length (split sep s).
Proof.
  induction s as [|c s IH]; [done|]. cbn [includes split].
  pose proof (split_nonempty s) as Hne.
  destruct (Ascii.eqb c sep); cbn [orb].
  - intros _. destruct (split sep s); [done|]. cbn [length]. lia.
  - intros Hs. specialize (IH Hs). destruct (split sep s); [done|]. done.
Qed.

End SplitFacts.

Lemma splitSpaces_nonempty s : splitSpaces s ≠ [].
Proof.
  induction s as [|c s IH]; [done|]. cbn [splitSpaces].
  destruct (isSpace c); [by destruct (headIsSpace s)|].
  by destruct (splitSpaces s).
Qed.

Lemma splitSpaces_pieces s :
  Forall (λ piece, anySpace piece = false) (splitSpaces s).
Proof.
  induction s as [|c s IH]; [by repeat constructor|]. cbn [splitSpaces].
  destruct (isSpace c) eqn:Hc.
  - destruct (headIsSpace s); [done|by constructor].
  - destruct (splitSpaces s) as [|h t]; [by repeat constructor; cbn; rewrite Hc|].
    apply Forall_cons in IH as [Hh Ht]. constructor; [|done].
    cbn [anySpace]. by rewrite Hc, Hh.
Qed.

Lemma concat_splitSpaces s :
  String.concat "" (splitSpaces s) = withoutSpaces s.
Proof.
  assert (∀ l, l ≠ [] → String.concat "" ("" :: l) = String.concat "" l) as Hskip.
  { intros [|x l]; [done|]. done. }
  induction s as [|c s IH]; [done|]. cbn [splitSpaces withoutSpaces].
  pose proof (splitSpaces_nonempty s) as Hne.
  destruct (isSpace c); [destruct (headIsSpace s)|].
  - done.
  - by rewrite Hskip.
  - destruct (splitSpaces s) as [|h [|x t]]; [done| |];
      cbn [String.concat] in *; by rewrite ?app_String_cons, IH.
Qed.

(** The tokens of a record: none is empty, none holds white space, and in
    order they spell the record without its white space. *)
Lemma mechanismStrings_tokens spfRecord :
  Forall (λ token, token ≠ "" ∧ anySpace token = false)
         (mechanismStrings spfRecord) ∧
  String.concat "" (mechanismStrings spfRecord) = withoutSpaces spfRecord.
Proof.
  unfold mechanismStrings. split.
  - apply Forall_forall. intros token Htoken.
    apply list_elem_of_filter in Htoken as [Hlen Hin]. split.
    + intros ->. cbn in Hlen. lia.
    + pose proof (splitSpaces_pieces spfRecord) as Hp.
      rewrite Forall_forall in Hp. by apply Hp.
  - rewrite <- concat_splitSpaces.
    induction (splitSpaces spfRecord) as [|piece l IH]; [done|].
    assert (∀ x l', String.concat "" (x :: l') = x +:+ String.concat "" l')
      as Hcons.
    { intros x [|y l']; cbn [String.concat]; [|done].
      induction x as [|a x IHx]; [done|]. by rewrite app_String_cons, <- IHx. }
    destruct piece as [|a piece].
    + rewrite filter_cons_False by (cbn; lia). by rewrite IH, Hcons.
    + rewrite filter_cons_True by (cbn; lia). by rewrite !Hcons, IH.
Qed.

(** The three ways a token without its qualifier splits. *)
Lemma typeAndValue_colon qualifier rest :
  includes ":" rest = true →
  ∃ type value,
    rest = type +:+ ":" +:+ value ∧ includes ":" type = false ∧
    typeAndValue qualifier rest = mkMechanism qualifier type value.
Proof.
  intros Hc. unfold typeAndValue.
  pose proof (split_several ":" rest Hc) as Hlen.
  pose proof (split_pieces ":" rest) as Hp.
  pose proof (join_split ":" rest) as Hj.
  rewrite bool_decide_eq_true_2 by done.
  destruct (split ":" rest) as [|h [|x t]]; [cbn in Hlen; lia..|].
  apply Forall_cons in Hp as [Hh _].
  exists h, (join ":" (x :: t)). split_and!; [|done|done].
  by rewrite <- Hj.
Qed.

Lemma typeAndValue_equals qualifier rest :
  includes ":" rest = false → includes "=" rest = true →
  ∃ type value more,
    split "=" rest = type :: value :: more ∧
    rest = type +:+ "=" +:+ join "=" (value :: more) ∧
    includes "=" type = false ∧ includes "=" value = false ∧
    typeAndValue qualifier rest = mkMechanism qualifier type value.
Proof.
  intros Hc He. unfold typeAndValue.
  rewrite (split_single ":" rest Hc), bool_decide_eq_false_2 by (cbn; lia).
  rewrite He.
  pose proof (split_several "=" rest He) as Hlen.
  pose proof (split_pieces "=" rest) as Hp.
  pose proof (join_split "=" rest) as Hj.
  destruct (split "=" rest) as [|h [|x t]]; [cbn in Hlen; lia..|].
  apply Forall_cons in Hp as [Hh Hp]. apply Forall_cons in Hp as [Hx _].
  exists h, x, t. split_and!; [done| |done..].
  by rewrite <- Hj.
Qed.

Lemma typeAndValue_bare qualifier rest :
  includes ":" rest = false → includes "=" rest = false →
  typeAndValue qualifier rest =
  mkMechanism qualifier rest (if bool_decide (rest = "all") then "all" else "").
Proof.
  intros Hc He. unfold typeAndValue.
  rewrite (split_single ":" rest Hc), bool_decide_eq_false_2 by (cbn; lia).
  rewrite He. by case_bool_decide.
Qed.

Module JSONFacts.
Import JSON.

Lemma unquoteBody_quoteChar c rest :
  unquoteBody (quoteChar c +:+ rest) =
  match unquoteBody rest with
  | Some (body, r) => Some (String c body, r)
  | None => None
  end.
Proof.
  destruct c as [[] [] [] [] [] [] [] []]; reflexivity.
Qed.

Lemma unquoteBody_quoteBody s rest :
  unquoteBody (quoteBody s +:+ String dquote rest) = Some (s, rest).
Proof.
  induction s as [|c s IH]; [reflexivity|].
  cbn [quoteBody]. rewrite app_String_assoc, unquoteBody_quoteChar, IH. reflexivity.
Qed.

Lemma quote_then_inj s1 s2 r1 r2 :
  quote s1 +:+ r1 = quote s2 +:+ r2 → s1 = s2 ∧ r1 = r2.
Proof.
  unfold quote. rewrite !app_String_cons, !app_String_assoc, !app_String_cons.
  intros H. injection H as H. rewrite !app_String_nil in H.
  apply (f_equal unquoteBody) in H.
  rewrite !unquoteBody_quoteBody in H. by simplify_eq.
Qed.

Lemma stringify_inj m1 m2 : stringify m1 = stringify m2 → m1 = m2.
Proof.
  destruct m1 as [q1 t1 v1], m2 as [q2 t2 v2]. unfold stringify.
  cbn [qualifier type value]. intros H.
  apply (inj (String.app "{")), quote_then_inj in H as [_ H].
  apply (inj (String.app ":")), quote_then_inj in H as [-> H].
  apply (inj (String.app ",")), quote_then_inj in H as [_ H].
  apply (inj (String.app ":")), quote_then_inj in H as [-> H].
  apply (inj (String.app ",")), quote_then_inj in H as [_ H].
  apply (inj (String.app ":")), quote_then_inj in H as [-> H].
  reflexivity.
Qed.

End JSONFacts.

(** ** Duplicates *)

Lemma elem_of_keepFirst m mechs : m ∈ keepFirst mechs ↔ m ∈ mechs.
Proof.
  induction mechs as [|x mechs IH]; [done|]. cbn [keepFirst].
  rewrite !elem_of_cons, list_elem_of_filter, IH.
  destruct (decide (m = x)); tauto.
Qed.

Lemma NoDup_keepFirst mechs : NoDup (keepFirst mechs).
Proof.
  induction mechs as [|x mechs IH]; cbn [keepFirst]; constructor.
  - rewrite list_elem_of_filter. by intros [? _].
  - by apply NoDup_filter.
Qed.

Lemma keepFirst_sublist mechs : keepFirst mechs `sublist_of` mechs.
Proof.
  induction mechs as [|x mechs IH]; [done|]. cbn [keepFirst].
  apply sublist_skip. etrans; [apply sublist_filter | done].
Qed.

Lemma filter_other_id (x : Mechanism) (mechs : list Mechanism) :
  x ∉ mechs → filter (λ m, m ≠ x) mechs = mechs.
Proof.
  induction mechs as [|y mechs IH]; [done|].
  rewrite not_elem_of_cons. intros [Hxy Hx].
  rewrite filter_cons_True by (by intros ->). f_equal. by apply IH.
Qed.

Lemma keepFirst_NoDup mechs : NoDup mechs → keepFirst mechs = mechs.
Proof.
  induction 1 as [|x mechs Hx _ IH]; [done|]. cbn [keepFirst].
  by rewrite IH, filter_other_id.
Qed.

(** A mechanism is dropped exactly when an earlier one is identical to it. *)
Lemma keepFirst_snoc mechs m :
  keepFirst (mechs ++ [m]) =
  if decide (m ∈ mechs) then keepFirst mechs else keepFirst mechs ++ [m].
Proof.
  induction mechs as [|x mechs IH].
  - by rewrite decide_False by apply not_elem_of_nil.
  - cbn [app keepFirst]. rewrite IH.
    destruct (decide (m ∈ x :: mechs)) as [Hin|Hin],
             (decide (m ∈ mechs)) as [Hin'|Hin']; [done| | |].
    + apply elem_of_cons in Hin as [->|?]; [|done].
      by rewrite filter_app, filter_cons_False, filter_nil, app_nil_r by auto.
    + by apply not_elem_of_cons in Hin as [_ ?].
    + apply not_elem_of_cons in Hin as [? _].
      by rewrite filter_app, filter_cons_True by done.
Qed.

Lemma removeDuplicates_from mechs uniqueMechanisms (seen : gset string) :
  (∀ m, JSON.stringify m ∈ seen ↔ m ∈ uniqueMechanisms) →
  removeDuplicates mechs uniqueMechanisms seen =
  uniqueMechanisms ++ filter (λ m, m ∉ uniqueMechanisms) (keepFirst mechs).
Proof.
  revert uniqueMechanisms seen.
  induction mechs as [|x mechs IH]; intros acc seen Hseen.
  - by rewrite app_nil_r.
  - cbn [removeDuplicates keepFirst]. case_decide as Hx.
    + apply Hseen in Hx. rewrite (IH _ _ Hseen), filter_cons_False by auto.
      f_equal. symmetry. apply list_filter_filter_l. by intros y Hy ->.
    + rewrite Hseen in Hx. rewrite filter_cons_True by done.
      rewrite (IH (acc ++ [x]) ({[JSON.stringify x]} ∪ seen)).
      * rewrite <- app_assoc. cbn [app]. do 2 f_equal.
        rewrite list_filter_filter. apply list_filter_iff.
        intros y. rewrite not_elem_of_app, list_elem_of_singleton. tauto.
      * intros y. rewrite elem_of_union, elem_of_singleton, elem_of_app, Hseen.
        rewrite list_elem_of_singleton.
        split.
        -- intros [Heq|?]; [right; by apply JSONFacts.stringify_inj | by left].
        -- intros [?| ->]; [by right | by left].
Qed.

Lemma removeDuplicates_keepFirst mechs :
  removeDuplicates mechs [] ∅ = keepFirst mechs.
Proof.
  rewrite removeDuplicates_from by set_solver. cbn [app].
  induction (keepFirst mechs) as [|x l IH]; [done|].
  rewrite filter_cons_True by apply not_elem_of_nil. by f_equal.
Qed.

Lemma Forall_keepFirst (P : Mechanism → Prop) mechs :
  Forall P mechs → Forall P (keepFirst mechs).
Proof.
  rewrite !Forall_forall. intros H m Hm. by apply H, elem_of_keepFirst.
Qed.

Lemma Forall_filter_keeps {A} (P Q : A → Prop) `{!∀ x, Decision (Q x)} (l : list A) :
  Forall P l → Forall P (filter Q l).
Proof.
  rewrite !Forall_forall. intros HP x Hx. apply HP.
  by apply list_elem_of_filter in Hx as [_ ?].
Qed.

Lemma finishLevel_ok st :
  LocalsOk st →
  noVersion (finishLevel st).1 ∧ (finishLevel st).2 = dnsLookups st.
Proof.
  intros [Hacc Hall]. unfold finishLevel. rewrite removeDuplicates_keepFirst.
  destruct (finalAllMechanism st) as [a|]; cbn.
  - split; [|done]. apply Forall_app. split.
    + by apply Forall_filter_keeps, Forall_keepFirst.
    + apply Forall_singleton. by rewrite (Hall a).
  - split; [|done]. by apply Forall_keepFirst.
Qed.

Lemma ownAll_last pre a post :
  type a = "all" → Forall (λ m, type m ≠ "all") post →
  ownAll (pre ++ a :: post) = Some a.
Proof.
  intros Ha Hpost. unfold ownAll.
  rewrite filter_app, filter_cons_True by done.
  replace (filter (λ m, type m = "all") post) with (@nil Mechanism).
  - apply last_snoc.
  - symmetry. induction Hpost as [|x post Hx _ IH]; [done|].
    by rewrite filter_cons_False.
Qed.

Lemma ownAll_none mechs :
  Forall (λ m, type m ≠ "all") mechs → ownAll mechs = None.
Proof.
  intros H. unfold ownAll. induction H as [|x mechs Hx _ IH]; [done|].
  by rewrite filter_cons_False.
Qed.

Lemma filter_Forall_id {A} (P : A → Prop) `{!∀ x, Decision (P x)} (l : list A) :
  Forall P l → filter P l = l.
Proof.
  induction 1 as [|x l Hx _ IH]; [done|].
  by rewrite filter_cons_True, IH.
Qed.

Lemma filter_Forall_nil {A} (P : A → Prop) `{!∀ x, Decision (P x)} (l : list A) :
  Forall (λ x, ¬ P x) l → filter P l = [].
Proof.
  induction 1 as [|x l Hx _ IH]; [done|].
  by rewrite filter_cons_False.
Qed.

Lemma find_isVSpf1_here v rest :
  isVSpf1 v →
  List.find (λ mech, bool_decide (type mech = "v" ∧ value mech = "spf1"))
            (v :: rest) = Some v.
Proof. intros Hv. cbn [List.find]. by rewrite bool_decide_eq_true_2. Qed.

Lemma find_isVSpf1_app pre rest :
  Forall (λ m, ¬ isVSpf1 m) pre →
  List.find (λ mech, bool_decide (type mech = "v" ∧ value mech = "spf1"))
            (pre ++ rest) =
  List.find (λ mech, bool_decide (type mech = "v" ∧ value mech = "spf1")) rest.
Proof.
  induction 1 as [|x pre Hx _ IH]; [done|]. cbn [app List.find].
  by rewrite bool_decide_eq_false_2.
Qed.

Lemma find_isVSpf1_none mechs :
  Forall (λ m, ¬ isVSpf1 m) mechs →
  List.find (λ mech, bool_decide (type mech = "v" ∧ value mech = "spf1")) mechs
  = None.
Proof.
  intros H. rewrite <- (app_nil_r mechs). by rewrite find_isVSpf1_app.
Qed.

(** What a record in plain order flattens to, its own [v=spf1] aside. *)
Lemma finishLevel_plain_order vs body al n :
  (vs = [] ∨ ∃ v, vs = [v] ∧ isVSpf1 v) →
  Forall pushedVerbatim body → NoDup body →
  (al = [] ∨ ∃ a, al = [a] ∧ type a = "all") →
  finishLevel (mkLocals (filter pushedVerbatim (vs ++ body ++ al)) n
                        (ownAll (vs ++ body ++ al)))
  = (body ++ al, n).
Proof.
  intros Hvs Hbody Hdup Hal.
  assert (filter pushedVerbatim vs = []) as Hfv.
  { destruct Hvs as [->|(v & -> & Hv & _)]; [done|].
    by rewrite filter_cons_False by (by intros [? _]). }
  assert (filter pushedVerbatim al = []) as Hfa.
  { destruct Hal as [->|(a & -> & Ha)]; [done|].
    by rewrite filter_cons_False by (by intros [_ ?]). }
  assert (ownAll (vs ++ body ++ al) = last al) as Hown.
  { unfold ownAll. rewrite !filter_app.
    rewrite (filter_Forall_nil _ body)
      by (eapply Forall_impl; [done|]; by intros m [_ ?]).
    destruct Hvs as [->|(v & -> & Hv & _)], Hal as [->|(a & -> & Ha)]; cbn [app].
    - done.
    - by rewrite filter_cons_True.
    - by rewrite filter_cons_False by (by rewrite Hv).
    - rewrite filter_cons_False by (by rewrite Hv). by rewrite filter_cons_True. }
  unfold finishLevel. cbn [flattenedMechanisms dnsLookups finalAllMechanism].
  rewrite Hown, !filter_app, Hfv, Hfa, app_nil_r.
  rewrite (filter_Forall_id pushedVerbatim body) by done.
  cbn [app]. rewrite removeDuplicates_keepFirst, keepFirst_NoDup by done.
  destruct Hal as [->|(a & -> & Ha)]; cbn [last].
  - by rewrite app_nil_r.
  - rewrite filter_Forall_id; [done|].
    eapply Forall_impl; [done|]. by intros m [_ ?].
Qed.

(** ** The parser on resolved records *)

Lemma parseSpf_nonempty spfRecord :
  spfRecord ≠ "" →
  parseSpf spfRecord = Normal (parsedMechanisms spfRecord).
Proof. intros H. unfold parseSpf. by rewrite bool_decide_eq_false_2. Qed.

Lemma startsWith_nonempty record : startsWith "v=spf1" record → record ≠ "".
Proof. by intros H ->. Qed.

(** ** Lookup accounting *)

(** Evaluate the closed parts of a run: the records a lookup keeps, the
    parse of a record, the code after the loop. *)
Ltac eval_closed t :=
  let v := eval vm_compute in t in change t with v; cbv beta match.

Ltac eval_records :=
  match goal with
  | |- context [filter ?P (join ?sep <$> ?records)] =>
      eval_closed (filter P (join sep <$> records))
  end.

Ltac eval_parse :=
  match goal with
  | |- context [parsedMechanisms ?record] => eval_closed (parsedMechanisms record)
  end.

Ltac eval_finish :=
  match goal with
  | |- context [finishLevel ?st] => eval_closed (finishLevel st)
  end.

Section FlattenerFacts.

Context {World : Type}.
Variable resolveTxt : string → World → TxtAnswer * World.

Lemma resolve_at_ceiling hostname n (e : Env World) :
  MAX_DNS_LOOKUPS ≤ n →
  resolveSpfTxtRecord resolveTxt hostname n e = Some (Normal ([], n), e).
Proof. intros H. unfold resolveSpfTxtRecord. by rewrite decide_True. Qed.

Lemma resolve_resolved hostname n (e : Env World) records w' :
  n < MAX_DNS_LOOKUPS →
  resolveTxt hostname (world e) = (Resolved records, w') →
  resolveSpfTxtRecord resolveTxt hostname n e =
  Some (Normal (filter (λ record, startsWith "v=spf1" record)
                       (join "" <$> records), n + 1),
        mkEnv w' (queries e ++ [hostname])).
Proof.
  intros Hn Hdns. unfold resolveSpfTxtRecord.
  by rewrite decide_False, Hdns by lia.
Qed.

Lemma resolve_rejected hostname n (e : Env World) code w' :
  n < MAX_DNS_LOOKUPS →
  resolveTxt hostname (world e) = (Rejected code, w') →
  resolveSpfTxtRecord resolveTxt hostname n e =
  Some (Normal ([], n + 1), mkEnv w' (queries e ++ [hostname])).
Proof.
  intros Hn Hdns. unfold resolveSpfTxtRecord.
  by rewrite decide_False, Hdns by lia.
Qed.

Lemma resolve_nullish hostname n (e : Env World) reason w' :
  n < MAX_DNS_LOOKUPS →
  resolveTxt hostname (world e) = (RejectedNullish reason, w') →
  resolveSpfTxtRecord resolveTxt hostname n e =
  Some (Throw (typeErrorMessage reason "code"),
        mkEnv w' (queries e ++ [hostname])).
Proof.
  intros Hn Hdns. unfold resolveSpfTxtRecord.
  by rewrite decide_False, Hdns by lia.
Qed.

(** Below the ceiling the lookup issues its one query, and returns with the
    count plus one unless the [catch] block throws. *)
Lemma resolve_below_ceiling hostname n (e : Env World) :
  n < MAX_DNS_LOOKUPS →
  ∃ c e',
    resolveSpfTxtRecord resolveTxt hostname n e = Some (c, e') ∧
    queries e' = queries e ++ [hostname] ∧
    world e' = (resolveTxt hostname (world e)).2 ∧
    match c with
    | Normal (spfRecords, n') =>
        n' = n + 1 ∧
        Forall (λ record, startsWith "v=spf1" record) spfRecords
    | Throw message => thrownByCatch resolveTxt message
    end.
Proof.
  intros H.
  destruct (resolveTxt hostname (world e)) as [[records|code|reason] w]
    eqn:Hdns.
  - rewrite (resolve_resolved _ _ _ _ _ H Hdns). eexists _, _.
    split_and!; [done..|]. split; [done|]. apply Forall_forall.
    intros x Hx. by apply list_elem_of_filter in Hx as [? _].
  - rewrite (resolve_rejected _ _ _ _ _ H Hdns). eexists _, _.
    by split_and!.
  - rewrite (resolve_nullish _ _ _ _ _ H Hdns). eexists _, _.
    split_and!; [done..|]. by exists hostname, (world e), reason, w.
Qed.

Lemma ret_Agreeing {A} (count : A → nat) (P : A → Prop) n (e : Env World) a :
  P a → count a = n → Agreeing resolveTxt count P n e (ret a e) (ret a e).
Proof.
  intros HP Hc. split; [|done]. exists (Normal a), e, [].
  rewrite app_nil_r. cbn. split_and!; try done; lia.
Qed.

Lemma bind_Agreeing {A B} (c1 : A → nat) (P1 : A → Prop) (c2 : B → nat)
    (P2 : B → Prop) n (e : Env World) (m m' : Run World A)
    (k k' : A → Run World B) :
  Agreeing resolveTxt c1 P1 n e (m e) (m' e) →
  (∀ a e1, P1 a → n ≤ c1 a → c1 a ≤ n `max` MAX_DNS_LOOKUPS →
     Agreeing resolveTxt c2 P2 (c1 a) e1 (k a e1) (k' a e1)) →
  Agreeing resolveTxt c2 P2 n e (bind m k e) (bind m' k' e).
Proof.
  intros [(c & e1 & new & Hm & Hq & Hle & Hc) Hm'] Hk.
  unfold bind. rewrite Hm', Hm. destruct c as [a|message].
  - destruct Hc as [Hc HP].
    destruct (Hk a e1) as [(c' & e2 & new2 & Hk1 & Hq2 & Hle2 & Hc2) Hk'];
      [done|lia|lia|].
    split; [|done]. exists c', e2, (new ++ new2).
    rewrite Hq2, Hq, length_app, app_assoc. split_and!; [done..|lia|].
    destruct c' as [b|message]; [|done].
    destruct Hc2 as [Hc2 HP2]. split; [lia|done].
  - split; [|done]. by exists (Throw message), e1, new.
Qed.

Lemma resolve_Agreeing hostname n (e : Env World) :
  Agreeing resolveTxt snd
    (λ r, Forall (λ record, startsWith "v=spf1" record) r.1 ∧
          (r.1 ≠ [] → n < r.2 ∧ r.2 ≤ MAX_DNS_LOOKUPS))
    n e
    (resolveSpfTxtRecord resolveTxt hostname n e)
    (resolveSpfTxtRecord resolveTxt hostname n e).
Proof.
  split; [|done].
  destruct (decide (MAX_DNS_LOOKUPS ≤ n)) as [Hn|Hn].
  - rewrite resolve_at_ceiling by done. exists (Normal ([], n)), e, [].
    rewrite app_nil_r. cbn. split_and!; try done; lia.
  - destruct (resolve_below_ceiling hostname n e)
      as (c & e' & -> & Hq & _ & Hc); [lia|].
    exists c, e', [hostname]. cbn [length]. split_and!; [done..|lia|].
    destruct c as [[rs n']|message]; [|done].
    destruct Hc as [-> Hrs]. cbn. split_and!; try done; lia.
Qed.

Lemma parse_Agreeing record n (e : Env World) :
  startsWith "v=spf1" record →
  Agreeing resolveTxt (λ _, n) (λ parsed, parsed = parsedMechanisms record)
    n e
    (liftCompletion (parseSpf record) e) (liftCompletion (parseSpf record) e).
Proof.
  intros H. unfold liftCompletion.
  rewrite parseSpf_nonempty by by apply startsWith_nonempty.
  by apply (ret_Agreeing (λ _, n)).
Qed.

Lemma bind_inv {A B} (m : Run World A) (k : A → Run World B) e b e2 :
  bind m k e = Some (Normal b, e2) →
  ∃ a e1, m e = Some (Normal a, e1) ∧ k a e1 = Some (Normal b, e2).
Proof.
  unfold bind. destruct (m e) as [[[a|message] e1]|]; [eauto|done|done].
Qed.

Lemma bind_eq {A B} (m : Run World A) (k : A → Run World B) e a e1 :
  m e = Some (Normal a, e1) → bind m k e = k a e1.
Proof. unfold bind. by intros ->. Qed.

Section LoopFacts.

Variable self : list Mechanism → string → nat → Run World Flattened.

Lemma includeRecords_finalAll records hostname st e st' e' :
  includeRecords self records hostname st e = Some (Normal st', e') →
  finalAllMechanism st' = finalAllMechanism st.
Proof.
  revert st e. induction records as [|record rest IH]; intros st e;
    cbn [includeRecords].
  - by intros [= <- _].
  - intros H. apply bind_inv in H as (parsed & e1 & _ & H).
    apply bind_inv in H as ([sub n] & e2 & _ & H).
    by apply IH in H.
Qed.

Lemma ownAllOr_cons_all init m rest :
  type m = "all" → ownAllOr init (m :: rest) = ownAllOr (Some m) rest.
Proof.
  intros Hm. unfold ownAllOr, ownAll. rewrite filter_cons_True by done.
  rewrite last_cons. by destruct (last _).
Qed.

Lemma ownAllOr_cons_other init m rest :
  type m ≠ "all" → ownAllOr init (m :: rest) = ownAllOr init rest.
Proof.
  intros Hm. unfold ownAllOr, ownAll. by rewrite filter_cons_False by done.
Qed.

(** With no [redirect] in it the loop runs to its end, and holds the last
    [all] it met. *)
Lemma forMechanisms_runs_through parsedSpf st e r e' :
  Forall (λ m, type m ≠ "redirect") parsedSpf →
  forMechanisms resolveTxt self parsedSpf st e = Some (Normal r, e') →
  ∃ st', r = inl st' ∧
         finalAllMechanism st' = ownAllOr (finalAllMechanism st) parsedSpf.
Proof.
  intros Hno. revert st e.
  induction Hno as [|mechanism rest Hm _ IH]; intros st e;
    cbn [forMechanisms].
  - intros [= <- _]. by exists st.
  - repeat case_decide; try done.
    + rewrite ownAllOr_cons_other by congruence. apply IH.
    + intros Hrun. apply bind_inv in Hrun as ([records n] & e1 & _ & Hrun).
      apply bind_inv in Hrun as (st1 & e2 & Hinc & Hrun).
      apply includeRecords_finalAll in Hinc. cbn in Hinc.
      rewrite ownAllOr_cons_other by congruence. rewrite <- Hinc. by apply IH in Hrun.
    + rewrite ownAllOr_cons_all by done. intros Hrun. by apply IH in Hrun.
    + rewrite ownAllOr_cons_other by done. intros Hrun. by apply IH in Hrun.
Qed.

(** Mechanisms the loop has run through without leaving are behind it. *)
Lemma forMechanisms_prefix pre post st e st1 e1 :
  forMechanisms resolveTxt self pre st e = Some (Normal (inl st1), e1) →
  forMechanisms resolveTxt self (pre ++ post) st e =
  forMechanisms resolveTxt self post st1 e1.
Proof.
  revert st e. induction pre as [|mechanism rest IH]; intros st e;
    cbn [forMechanisms app].
  - by intros [= <- <-].
  - repeat case_decide; try apply IH.
    + intros Hrun. apply bind_inv in Hrun as ([[|first others] n] & e2 & _ & Hrun); [done|].
      apply bind_inv in Hrun as (parsed & e3 & _ & Hrun).
      by apply bind_inv in Hrun as ([sub n'] & e4 & _ & Hrun).
    + intros Hrun. apply bind_inv in Hrun as ([records n] & e2 & Hres & Hrun).
      apply bind_inv in Hrun as (st2 & e3 & Hinc & Hrun).
      rewrite (bind_eq _ _ _ _ _ Hres). cbn beta iota.
      rewrite (bind_eq _ _ _ _ _ Hinc). by apply IH.
Qed.

(** A level that resolves nothing is a pure function of its mechanisms. *)
Lemma forMechanisms_resolvesNothing parsedSpf st e :
  Forall resolvesNothing parsedSpf →
  forMechanisms resolveTxt self parsedSpf st e =
  Some (Normal (inl (mkLocals
                       (flattenedMechanisms st ++ filter pushedVerbatim parsedSpf)
                       (dnsLookups st)
                       (ownAllOr (finalAllMechanism st) parsedSpf))), e).
Proof.
  intros Hno. revert st.
  induction Hno as [|mechanism rest [Hr Hi] _ IH]; intros st;
    cbn [forMechanisms].
  - rewrite filter_nil, app_nil_r. by destruct st.
  - repeat case_decide; try done.
    + rewrite filter_cons_False by (by intros [? _]).
      by rewrite IH, ownAllOr_cons_other by congruence.
    + rewrite filter_cons_False by (by intros [_ ?]).
      by rewrite IH, ownAllOr_cons_all by done.
    + rewrite filter_cons_True by done.
      rewrite IH, ownAllOr_cons_other by done. cbn [flattenedMechanisms dnsLookups finalAllMechanism].
      by rewrite <- app_assoc.
Qed.

Lemma forMechanisms_skip pre post st e :
  Forall resolvesNothing pre →
  forMechanisms resolveTxt self (pre ++ post) st e =
  forMechanisms resolveTxt self post
    (mkLocals (flattenedMechanisms st ++ filter pushedVerbatim pre)
              (dnsLookups st) (ownAllOr (finalAllMechanism st) pre)) e.
Proof.
  intros Hpre. apply forMechanisms_prefix.
  by apply forMechanisms_resolvesNothing.
Qed.

Lemma forMechanisms_cons_plain m rest st e :
  resolvesNothing m →
  forMechanisms resolveTxt self (m :: rest) st e =
  forMechanisms resolveTxt self rest
    (mkLocals (flattenedMechanisms st ++ filter pushedVerbatim [m])
              (dnsLookups st) (ownAllOr (finalAllMechanism st) [m])) e.
Proof. intros Hm. apply (forMechanisms_skip [m]). by constructor. Qed.

(** The [include] branch, by what the lookup does. *)
Lemma forMechanisms_include_resolved m rest st e records w' :
  type m = "include" →
  dnsLookups st < MAX_DNS_LOOKUPS →
  resolveTxt (value m) (world e) = (Resolved records, w') →
  forMechanisms resolveTxt self (m :: rest) st e =
  bind (includeRecords self
          (filter (λ record, startsWith "v=spf1" record) (join "" <$> records))
          (value m)
          (mkLocals (flattenedMechanisms st) (dnsLookups st + 1)
                    (finalAllMechanism st)))
       (λ st', forMechanisms resolveTxt self rest st')
       (mkEnv w' (queries e ++ [value m])).
Proof.
  intros Hm Hn Hdns. cbn [forMechanisms].
  rewrite decide_False, decide_False, decide_True by (by rewrite ?Hm).
  unfold bind at 1. by rewrite (resolve_resolved _ _ _ _ _ Hn Hdns).
Qed.

Lemma forMechanisms_include_rejected m rest st e code w' :
  type m = "include" →
  dnsLookups st < MAX_DNS_LOOKUPS →
  resolveTxt (value m) (world e) = (Rejected code, w') →
  forMechanisms resolveTxt self (m :: rest) st e =
  forMechanisms resolveTxt self rest
    (mkLocals (flattenedMechanisms st) (dnsLookups st + 1) (finalAllMechanism st))
    (mkEnv w' (queries e ++ [value m])).
Proof.
  intros Hm Hn Hdns. cbn [forMechanisms].
  rewrite decide_False, decide_False, decide_True by (by rewrite ?Hm).
  unfold bind at 1. by rewrite (resolve_rejected _ _ _ _ _ Hn Hdns).
Qed.

Lemma forMechanisms_include_exhausted m rest st e :
  type m = "include" →
  MAX_DNS_LOOKUPS ≤ dnsLookups st →
  forMechanisms resolveTxt self (m :: rest) st e =
  forMechanisms resolveTxt self rest st e.
Proof.
  intros Hm Hn. cbn [forMechanisms].
  rewrite decide_False, decide_False, decide_True by (by rewrite ?Hm).
  unfold bind at 1. rewrite resolve_at_ceiling by done.
  by destruct st.
Qed.

Lemma forMechanisms_include_nullish m rest st e reason w' :
  type m = "include" →
  dnsLookups st < MAX_DNS_LOOKUPS →
  resolveTxt (value m) (world e) = (RejectedNullish reason, w') →
  forMechanisms resolveTxt self (m :: rest) st e =
  Some (Throw (typeErrorMessage reason "code"),
        mkEnv w' (queries e ++ [value m])).
Proof.
  intros Hm Hn Hdns. cbn [forMechanisms].
  rewrite decide_False, decide_False, decide_True by (by rewrite ?Hm).
  unfold bind at 1. by rewrite (resolve_nullish _ _ _ _ _ Hn Hdns).
Qed.

Lemma includeRecords_cons record rest hostname st e sub n e1 :
  record ≠ "" →
  self (parsedMechanisms record) hostname (dnsLookups st) e
    = Some (Normal (sub, n), e1) →
  includeRecords self (record :: rest) hostname st e =
  includeRecords self rest hostname
    (mkLocals (flattenedMechanisms st ++ filter (λ m, type m ≠ "v") sub) n
              (finalAllMechanism st)) e1.
Proof.
  intros Hrecord Hself. cbn [includeRecords]. unfold bind, liftCompletion.
  by rewrite parseSpf_nonempty, Hself by done.
Qed.

End LoopFacts.

Section LevelFacts.

(** The calls of one activation entered with [n0] lookups counted, and a
    second function that agrees with them on the counts they can be made
    with. *)
Variables self self' : list Mechanism → string → nat → Run World Flattened.
Variable n0 : nat.
Hypothesis self_sound : Sound resolveTxt (S n0) self.
Hypothesis self_agree :
  ∀ parsedSpf domain n e,
    n0 < n → n ≤ MAX_DNS_LOOKUPS →
    self' parsedSpf domain n e = self parsedSpf domain n e.

Lemma self_Agreeing parsedSpf domain n e :
  n0 < n → n ≤ MAX_DNS_LOOKUPS →
  Agreeing resolveTxt snd (λ r, noVersion r.1) n e
    (self parsedSpf domain n e) (self' parsedSpf domain n e).
Proof. intros ??. split; [by apply self_sound | by apply self_agree]. Qed.

Lemma includeRecords_ok records hostname st e :
  Forall (λ record, startsWith "v=spf1" record) records →
  (records ≠ [] → n0 < dnsLookups st ∧ dnsLookups st ≤ MAX_DNS_LOOKUPS) →
  LocalsOk st →
  Agreeing resolveTxt dnsLookups LocalsOk (dnsLookups st) e
    (includeRecords self records hostname st e)
    (includeRecords self' records hostname st e).
Proof.
  intros Hrs. revert st e.
  induction Hrs as [|record rest Hrecord _ IH]; intros st e Hn Hst;
    cbn [includeRecords].
  - by apply ret_Agreeing.
  - destruct Hn as [Hlo Hhi]; [done|].
    eapply bind_Agreeing; [by apply parse_Agreeing|].
    intros parsed e1 _ _ _.
    eapply bind_Agreeing; [by apply self_Agreeing|].
    intros [subFlattened subNewLookupCount] e2 Hsub Hge Hle. cbn in Hsub, Hge, Hle.
    apply (IH (mkLocals _ _ _)); cbn.
    + intros _. lia.
    + destruct Hst as [Hacc Hall]. split; [|done].
      apply Forall_app. split; [done|].
      apply Forall_forall. intros x Hx. by apply list_elem_of_filter in Hx as [? _].
Qed.

Lemma forMechanisms_ok parsedSpf st e :
  LocalsOk st → n0 ≤ dnsLookups st →
  Agreeing resolveTxt countOf leftOk (dnsLookups st) e
    (forMechanisms resolveTxt self parsedSpf st e)
    (forMechanisms resolveTxt self' parsedSpf st e).
Proof.
  revert st e.
  induction parsedSpf as [|mechanism rest IH]; intros st e Hst Hn;
    cbn [forMechanisms].
  - by apply (ret_Agreeing countOf leftOk).
  - destruct Hst as [Hacc Hall].
    repeat case_decide.
    + by apply IH.
    + eapply bind_Agreeing; [apply resolve_Agreeing|].
      intros [[|first others] newLookupCount] e1 [Hrs Hnew] Hge Hle;
        cbn in Hrs, Hnew, Hge, Hle.
      { apply (ret_Agreeing countOf leftOk); [constructor|done]. }
      destruct Hnew as [Hlo Hhi]; [done|].
      apply Forall_cons in Hrs as [Hfirst _].
      eapply bind_Agreeing; [by apply parse_Agreeing|].
      intros parsed e2 _ _ _.
      eapply bind_Agreeing; [apply self_Agreeing; lia|].
      intros [subFlattened subNewLookupCount] e3 Hsub _ _.
      by apply (ret_Agreeing countOf leftOk).
    + eapply bind_Agreeing; [apply resolve_Agreeing|].
      intros [records newLookupCount] e1 [Hrs Hnew] Hge Hle;
        cbn in Hrs, Hnew, Hge, Hle.
      eapply bind_Agreeing.
      { apply (includeRecords_ok _ _ (mkLocals _ _ _)); cbn; [done| |done].
        intros Hne. destruct (Hnew Hne). lia. }
      intros st' e2 Hst' Hge' Hle'. cbn in Hge', Hle'.
      apply IH; [done|lia].
    + apply (IH (mkLocals _ _ _)); [|done].
      split; [done|]. cbn. by intros a [= <-].
    + apply (IH (mkLocals _ _ _)); [|done].
      split; [|done]. cbn. apply Forall_app. split; [done|].
      by apply Forall_singleton.
Qed.

Lemma flattenLevel_ok parsedSpf domain e :
  Agreeing resolveTxt snd (λ r, noVersion r.1) n0 e
    (flattenLevel resolveTxt self parsedSpf domain n0 e)
    (flattenLevel resolveTxt self' parsedSpf domain n0 e).
Proof.
  unfold flattenLevel. eapply bind_Agreeing.
  - apply (forMechanisms_ok _ (mkLocals _ _ _)); [|done].
    split; [constructor|done].
  - intros [st|result] e1 Hleft _ _; cbn in Hleft.
    + destruct (finishLevel_ok st Hleft) as [Hnov Hcount].
      by apply (ret_Agreeing snd).
    + by apply (ret_Agreeing snd).
Qed.

End LevelFacts.

Lemma Sound_weaken lo lo'
    (self : list Mechanism → string → nat → Run World Flattened) :
  lo ≤ lo' → Sound resolveTxt lo self → Sound resolveTxt lo' self.
Proof. intros Hle Hs parsedSpf domain n e Hlo Hhi. apply Hs; lia. Qed.

(** [fuel] activations are enough from [S MAX_DNS_LOOKUPS - fuel] lookups on. *)
Lemma flattenFuel_sound fuel :
  Sound resolveTxt (S MAX_DNS_LOOKUPS - fuel) (flattenFuel resolveTxt fuel).
Proof.
  induction fuel as [|fuel IH]; intros parsedSpf domain n e Hlo Hhi.
  - lia.
  - cbn [flattenFuel].
    apply (flattenLevel_ok (flattenFuel resolveTxt fuel)
                           (flattenFuel resolveTxt fuel) n); [|done].
    apply (Sound_weaken (S MAX_DNS_LOOKUPS - fuel)); [lia|done].
Qed.

(** More fuel than that changes nothing. *)
Lemma flattenFuel_enough fuel1 fuel2 parsedSpf domain n e :
  n ≤ MAX_DNS_LOOKUPS →
  S MAX_DNS_LOOKUPS ≤ fuel1 + n → S MAX_DNS_LOOKUPS ≤ fuel2 + n →
  flattenFuel resolveTxt fuel1 parsedSpf domain n e =
  flattenFuel resolveTxt fuel2 parsedSpf domain n e.
Proof.
  revert fuel2 parsedSpf domain n e.
  induction fuel1 as [|fuel1 IH]; intros [|fuel2] parsedSpf domain n e Hn H1 H2;
    [lia..|].
  cbn [flattenFuel]. symmetry.
  apply (flattenLevel_ok (flattenFuel resolveTxt fuel1)
                         (flattenFuel resolveTxt fuel2) n).
  - apply (Sound_weaken (S MAX_DNS_LOOKUPS - fuel1)); [lia|].
    apply flattenFuel_sound.
  - intros p d n' e' Hlo Hhi. symmetry. apply IH; lia.
Qed.

(** [recursiveFlattenSpf] is the function its source text defines: it
    satisfies the equation of its body, with itself as the recursive call. *)
Theorem recursiveFlattenSpf_unfold parsedSpf domain n e :
  recursiveFlattenSpf resolveTxt parsedSpf domain n e =
  flattenLevel resolveTxt (recursiveFlattenSpf resolveTxt) parsedSpf domain n e.
Proof.
  unfold recursiveFlattenSpf at 1. cbn [flattenFuel]. symmetry.
  apply (flattenLevel_ok (flattenFuel resolveTxt (MAX_DNS_LOOKUPS - n))
                         (recursiveFlattenSpf resolveTxt) n).
  - apply (Sound_weaken (S MAX_DNS_LOOKUPS - (MAX_DNS_LOOKUPS - n))); [lia|].
    apply flattenFuel_sound.
  - intros p d n' e' Hlo Hhi. unfold recursiveFlattenSpf.
    apply flattenFuel_enough; lia.
Qed.

(** Any deeper unrolling returns the same: the depth chosen for
    [recursiveFlattenSpf] cuts nothing off. *)
Theorem flattenFuel_stable fuel parsedSpf domain n e :
  S (MAX_DNS_LOOKUPS - n) ≤ fuel →
  flattenFuel resolveTxt fuel parsedSpf domain n e =
  recursiveFlattenSpf resolveTxt parsedSpf domain n e.
Proof.
  destruct fuel as [|fuel]; [lia|]. intros Hfuel.
  unfold recursiveFlattenSpf. cbn [flattenFuel].
  apply (flattenLevel_ok (flattenFuel resolveTxt (MAX_DNS_LOOKUPS - n))
                         (flattenFuel resolveTxt fuel) n).
  - apply (Sound_weaken (S MAX_DNS_LOOKUPS - (MAX_DNS_LOOKUPS - n))); [lia|].
    apply flattenFuel_sound.
  - intros p d n' e' Hlo Hhi. apply flattenFuel_enough; lia.
Qed.

Theorem recursiveFlattenSpf_accounted parsedSpf domain n e :
  Accounted resolveTxt snd (λ r, noVersion r.1) n e
    (recursiveFlattenSpf resolveTxt parsedSpf domain n e).
Proof.
  unfold recursiveFlattenSpf. cbn [flattenFuel].
  apply (flattenLevel_ok (flattenFuel resolveTxt (MAX_DNS_LOOKUPS - n))
                         (flattenFuel resolveTxt (MAX_DNS_LOOKUPS - n)) n);
    [|done].
  apply (Sound_weaken (S MAX_DNS_LOOKUPS - (MAX_DNS_LOOKUPS - n))); [lia|].
  apply flattenFuel_sound.
Qed.

Lemma rec_Sound lo : Sound resolveTxt lo (recursiveFlattenSpf resolveTxt).
Proof. intros parsedSpf domain n e _ _. apply recursiveFlattenSpf_accounted. Qed.

Lemma thrownByCatch_rejects message :
  rejectsWithErrorObject resolveTxt → ¬ thrownByCatch resolveTxt message.
Proof.
  intros Hgood (hostname & w & reason & w' & Hdns & _).
  by apply (Hgood hostname w reason w').
Qed.

(** With a resolver that rejects with error objects every activation
    returns. *)
Lemma recursiveFlattenSpf_returns parsedSpf domain n e :
  rejectsWithErrorObject resolveTxt →
  ∃ a e' new,
    recursiveFlattenSpf resolveTxt parsedSpf domain n e = Some (Normal a, e') ∧
    queries e' = queries e ++ new ∧
    a.2 = n + length new ∧ a.2 ≤ n `max` MAX_DNS_LOOKUPS ∧ noVersion a.1.
Proof.
  intros Hgood.
  destruct (recursiveFlattenSpf_accounted parsedSpf domain n e)
    as ([a|message] & e' & new & Hrun & Hq & Hle & Hc).
  - destruct Hc as [Hc Hnov]. exists a, e', new. split_and!; [done..|lia|done].
  - by apply thrownByCatch_rejects in Hc.
Qed.

Lemma resolve_records_spf hostname n (e : Env World) records n' e' :
  resolveSpfTxtRecord resolveTxt hostname n e = Some (Normal (records, n'), e') →
  Forall (λ record, startsWith "v=spf1" record) records.
Proof.
  destruct (decide (MAX_DNS_LOOKUPS ≤ n)) as [Hn|Hn].
  - rewrite resolve_at_ceiling by done. by intros [= <- _ _].
  - destruct (resolve_below_ceiling hostname n e) as (c & e1 & -> & _ & _ & Hc);
      [lia|].
    intros [= -> _]. by destruct Hc.
Qed.

(** The loop over mechanisms without a [redirect] completes: it runs to
    its end unless the [catch] block throws on the way. *)
Lemma forMechanisms_completes pre n (e : Env World) :
  Forall (λ x, type x ≠ "redirect") pre →
  ∃ c e1,
    forMechanisms resolveTxt (recursiveFlattenSpf resolveTxt) pre
      (mkLocals [] n None) e = Some (c, e1) ∧
    match c with
    | Normal (inl st1) =>
        finalAllMechanism st1 = ownAllOr None pre ∧ LocalsOk st1
    | Normal (inr _) => False
    | Throw message => thrownByCatch resolveTxt message
    end.
Proof.
  intros Hpre.
  destruct (forMechanisms_ok _ _ n (rec_Sound _) (λ _ _ _ _ _ _, eq_refl)
              pre (mkLocals [] n None) e)
    as [(c & e1 & new & Hrun & _ & _ & Hc) _];
    [by split; [constructor|] | done |].
  exists c, e1. split; [done|]. destruct c as [r|message]; [|done].
  destruct (forMechanisms_runs_through _ _ _ _ _ _ Hpre Hrun) as (st1 & -> & ?).
  by destruct Hc.
Qed.

(** A level whose first [redirect] is [m]: when the loop reaches it, the
    level completes as the lookup of its target decides. *)
Lemma level_at_redirect pre m post domain n (e : Env World) st1 e1 :
  type m = "redirect" →
  forMechanisms resolveTxt (recursiveFlattenSpf resolveTxt) pre
    (mkLocals [] n None) e = Some (Normal (inl st1), e1) →
  recursiveFlattenSpf resolveTxt (pre ++ m :: post) domain n e =
  match resolveSpfTxtRecord resolveTxt (value m) (dnsLookups st1) e1 with
  | Some (Normal (first :: _, newLookupCount), e2) =>
      recursiveFlattenSpf resolveTxt (parsedMechanisms first) (value m)
        newLookupCount e2
  | Some (Normal ([], newLookupCount), e2) =>
      Some (Normal ([], newLookupCount), e2)
  | Some (Throw message, e2) => Some (Throw message, e2)
  | None => None
  end.
Proof.
  intros Hm Hrun.
  rewrite recursiveFlattenSpf_unfold. unfold flattenLevel, bind at 1.
  rewrite (forMechanisms_prefix _ _ _ _ _ _ _ Hrun). cbn [forMechanisms].
  rewrite decide_False, decide_True by (by rewrite ?Hm).
  unfold bind.
  destruct (resolveSpfTxtRecord _ _ _ _)
    as [[[[[|first others] c]|message] e2]|] eqn:Hres; [done| |done..].
  apply resolve_records_spf, Forall_cons in Hres as [Hfirst _].
  unfold liftCompletion.
  rewrite parseSpf_nonempty by by apply startsWith_nonempty.
  by destruct (recursiveFlattenSpf _ _ _ _ _) as [[[[sub c']|message] e3]|].
Qed.

Lemma recursiveFlattenSpf_resolvesNothing parsedSpf domain n (e : Env World) :
  Forall resolvesNothing parsedSpf →
  recursiveFlattenSpf resolveTxt parsedSpf domain n e =
  Some (Normal (finishLevel
                  (mkLocals (filter pushedVerbatim parsedSpf) n (ownAll parsedSpf))),
        e).
Proof.
  intros Hno. rewrite recursiveFlattenSpf_unfold. unfold flattenLevel, bind.
  rewrite forMechanisms_resolvesNothing by done.
  unfold ownAllOr. by destruct (ownAll parsedSpf).
Qed.

(** An [include] whose target answers with one SPF record that resolves
    nothing itself: the loop goes on with that record's level appended. *)
Lemma forMechanisms_include_plain m rest st (e : Env World) records record w' :
  type m = "include" →
  dnsLookups st < MAX_DNS_LOOKUPS →
  resolveTxt (value m) (world e) = (Resolved records, w') →
  filter (λ r, startsWith "v=spf1" r) (join "" <$> records) = [record] →
  Forall resolvesNothing (parsedMechanisms record) →
  forMechanisms resolveTxt (recursiveFlattenSpf resolveTxt) (m :: rest) st e =
  forMechanisms resolveTxt (recursiveFlattenSpf resolveTxt) rest
    (mkLocals
       (flattenedMechanisms st ++
        filter (λ x, type x ≠ "v")
          (finishLevel
             (mkLocals (filter pushedVerbatim (parsedMechanisms record))
                       (dnsLookups st + 1) (ownAll (parsedMechanisms record)))).1)
       (dnsLookups st + 1) (finalAllMechanism st))
    (mkEnv w' (queries e ++ [value m])).
Proof.
  intros Hm Hn Hdns Hone Hplain.
  rewrite (forMechanisms_include_resolved _ _ _ _ _ _ _ Hm Hn Hdns), Hone.
  assert (record ≠ "") as Hrecord.
  { apply startsWith_nonempty.
    assert (record ∈ [record]) as Hin by apply list_elem_of_here.
    rewrite <- Hone in Hin. by apply list_elem_of_filter in Hin as [? _]. }
  erewrite bind_eq; [reflexivity|].
  erewrite includeRecords_cons; [|done|].
  - cbn [includeRecords ret flattenedMechanisms dnsLookups finalAllMechanism].
    reflexivity.
  - cbn [dnsLookups].
    rewrite recursiveFlattenSpf_resolvesNothing by done.
    unfold finishLevel. cbn [finalAllMechanism].
    by destruct (ownAll (parsedMechanisms record)).
Qed.

Lemma flattenSpf_eq parsedSpf domain e flattened n e' :
  recursiveFlattenSpf resolveTxt parsedSpf domain 0 e
    = Some (Normal (flattened, n), e') →
  flattenSpf resolveTxt parsedSpf domain e =
  Some (Normal
          (match List.find (λ mech, bool_decide (type mech = "v" ∧ value mech = "spf1"))
                           parsedSpf with
           | Some v => v :: flattened
           | None => flattened
           end), e').
Proof. intros H. unfold flattenSpf. by rewrite (bind_eq _ _ _ _ _ H). Qed.

Lemma flattenSpf_throws parsedSpf domain e message e' :
  recursiveFlattenSpf resolveTxt parsedSpf domain 0 e
    = Some (Throw message, e') →
  flattenSpf resolveTxt parsedSpf domain e = Some (Throw message, e').
Proof. intros H. unfold flattenSpf, bind. by rewrite H. Qed.

Lemma flattenSpf_accounted parsedSpf domain (e : Env World) :
  ∃ c e' new,
    flattenSpf resolveTxt parsedSpf domain e = Some (c, e') ∧
    queries e' = queries e ++ new ∧ length new ≤ MAX_DNS_LOOKUPS ∧
    match c with
    | Normal _ => True
    | Throw message => thrownByCatch resolveTxt message
    end.
Proof.
  destruct (recursiveFlattenSpf_accounted parsedSpf domain 0 e)
    as ([[mechs n']|message] & e' & new & Hrun & Hq & Hle & Hc).
  - rewrite (flattenSpf_eq _ _ _ _ _ _ Hrun). eexists _, e', new.
    split_and!; [done..| |done]. unfold MAX_DNS_LOOKUPS in *. lia.
  - rewrite (flattenSpf_throws _ _ _ _ _ Hrun). eexists _, e', new.
    split_and!; [done..| |done]. unfold MAX_DNS_LOOKUPS in *. lia.
Qed.

Lemma flattenSpf_returns parsedSpf domain (e : Env World) :
  rejectsWithErrorObject resolveTxt →
  ∃ mechs e' new,
    flattenSpf resolveTxt parsedSpf domain e = Some (Normal mechs, e') ∧
    queries e' = queries e ++ new ∧ length new ≤ MAX_DNS_LOOKUPS.
Proof.
  intros Hgood.
  destruct (flattenSpf_accounted parsedSpf domain e)
    as ([mechs|message] & e' & new & Hrun & Hq & Hle & Hc).
  - by exists mechs, e', new.
  - by apply thrownByCatch_rejects in Hc.
Qed.

(** C1: whatever the record, the resolver and the include/redirect graph,
    one call of [flattenSpf] completes and has issued at most ten TXT
    queries in all, whether it returns or leaves by the exception of the
    [catch] block; so does every activation of [recursiveFlattenSpf], which
    counts each query it issues exactly once; and [resolveSpfTxtRecord]
    tests the counter first: at ten or more it returns no record, leaves
    the counter and issues no query, below ten it issues exactly one. With
    a resolver that rejects with error objects the call returns. *)
Theorem flattenSpf_query_budget parsedSpf domain (e : Env World) :
  (∃ c e' new,
     flattenSpf resolveTxt parsedSpf domain e = Some (c, e') ∧
     queries e' = queries e ++ new ∧ length new ≤ 10 ∧
     match c with
     | Normal _ => True
     | Throw message => thrownByCatch resolveTxt message
     end) ∧
  (∀ n, ∃ c e' new,
     recursiveFlattenSpf resolveTxt parsedSpf domain n e = Some (c, e') ∧
     queries e' = queries e ++ new ∧ n + length new ≤ n `max` 10 ∧
     match c with
     | Normal (mechs, n') => n' = n + length new
     | Throw message => thrownByCatch resolveTxt message
     end) ∧
  (∀ hostname n e0,
     10 ≤ n →
     resolveSpfTxtRecord resolveTxt hostname n e0 = Some (Normal ([], n), e0)) ∧
  (∀ hostname n e0,
     n < 10 →
     ∃ c e1,
       resolveSpfTxtRecord resolveTxt hostname n e0 = Some (c, e1) ∧
       queries e1 = queries e0 ++ [hostname] ∧
       match c with
       | Normal (spfRecords, n') => n' = n + 1
       | Throw message => thrownByCatch resolveTxt message
       end) ∧
  (rejectsWithErrorObject resolveTxt →
   ∃ mechs e' new,
     flattenSpf resolveTxt parsedSpf domain e = Some (Normal mechs, e') ∧
     queries e' = queries e ++ new ∧ length new ≤ 10).
Proof.
  split_and!.
  - apply flattenSpf_accounted.
  - intros n.
    destruct (recursiveFlattenSpf_accounted parsedSpf domain n e)
      as (c & e' & new & Hrun & Hq & Hle & Hc).
    exists c, e', new. split_and!; [done..|].
    destruct c as [[mechs n']|message]; [|done]. by destruct Hc.
  - intros hostname n e0 Hn. by apply resolve_at_ceiling.
  - intros hostname n e0 Hn.
    destruct (resolve_below_ceiling hostname n e0 Hn)
      as (c & e1 & Hres & Hq & _ & Hc).
    exists c, e1. split_and!; [done..|].
    destruct c as [[spfRecords n']|message]; [|done]. by destruct Hc.
  - apply flattenSpf_returns.
Qed.

(** C2: in a record whose first [redirect] is [m], the loop completes
    before [m] (it reaches [m] unless the [catch] block throws on the
    way), and once the target of [m] yields an SPF record the level parses
    the first one, recurses into it with the count and state the lookup
    left, and returns that result as its own, whatever follows [m]; with
    the resolver answering [v=spf1 ip4:9.10.11.12 ?all] for
    [redirected.com], flattening [v=spf1 redirect=redirected.com] gives
    [v=spf1], [ip4:9.10.11.12], [?all] and nothing else, after one query. *)
Theorem redirect_returns_target :
  (∀ pre m post domain n (e : Env World),
     Forall (λ x, type x ≠ "redirect") pre →
     type m = "redirect" →
     ∃ c e1,
       forMechanisms resolveTxt (recursiveFlattenSpf resolveTxt) pre
         (mkLocals [] n None) e = Some (c, e1) ∧
       match c with
       | Normal (inl st1) =>
           ∀ first others newLookupCount e2,
             resolveSpfTxtRecord resolveTxt (value m) (dnsLookups st1) e1
               = Some (Normal (first :: others, newLookupCount), e2) →
             parseSpf first = Normal (parsedMechanisms first) ∧
             recursiveFlattenSpf resolveTxt (pre ++ m :: post) domain n e =
             recursiveFlattenSpf resolveTxt (parsedMechanisms first) (value m)
               newLookupCount e2
       | Normal (inr _) => False
       | Throw message => thrownByCatch resolveTxt message
       end) ∧
  (∀ w w' log,
     resolveTxt "redirected.com" w
       = (Resolved [["v=spf1 ip4:9.10.11.12 ?all"]], w') →
     parseSpf "v=spf1 redirect=redirected.com"
       = Normal [mkMechanism "+" "v" "spf1";
                 mkMechanism "+" "redirect" "redirected.com"] ∧
     flattenSpf resolveTxt
       [mkMechanism "+" "v" "spf1"; mkMechanism "+" "redirect" "redirected.com"]
       "example.com" (mkEnv w log)
     = Some (Normal [mkMechanism "+" "v" "spf1";
                     mkMechanism "+" "ip4" "9.10.11.12";
                     mkMechanism "?" "all" "all"],
             mkEnv w' (log ++ ["redirected.com"]))).
Proof.
  split.
  - intros pre m post domain n e Hpre Hm.
    destruct (forMechanisms_completes pre n e Hpre)
      as ([[st1|result]|message] & e1 & Hrun & Hc);
      [|done|by eexists _, e1].
    eexists _, e1. split; [done|].
    intros first others c e2 Hres.
    rewrite (level_at_redirect pre m post domain n e st1 e1 Hm Hrun), Hres.
    split; [|done].
    apply resolve_records_spf, Forall_cons in Hres as [Hfirst _].
    by apply parseSpf_nonempty, startsWith_nonempty.
  - intros w w' log Hdns. split; [reflexivity|].
    rewrite (flattenSpf_eq _ _ _
               [mkMechanism "+" "ip4" "9.10.11.12"; mkMechanism "?" "all" "all"]
               1 (mkEnv w' (log ++ ["redirected.com"]))); [reflexivity|].
    pose proof (level_at_redirect [mkMechanism "+" "v" "spf1"]
                  (mkMechanism "+" "redirect" "redirected.com") []
                  "example.com" 0 (mkEnv w log) (mkLocals [] 0 None)
                  (mkEnv w log) eq_refl eq_refl) as Hlevel.
    cbn [app] in Hlevel. rewrite Hlevel. cbn [value dnsLookups].
    erewrite resolve_resolved; [|unfold MAX_DNS_LOOKUPS; lia|exact Hdns].
    eval_records. eval_parse.
    rewrite recursiveFlattenSpf_resolvesNothing by by repeat constructor.
    by eval_finish.
Qed.

(** C10: the loop of a level completes before its first [redirect], which
    it reaches unless the [catch] block throws on the way; when it reaches
    it, what the level gathered before (the mechanisms pushed, the results
    of its includes, its own [all]) is dropped: the level completes as a
    level holding the redirect alone would, entered with the count and
    state the earlier lookups left. It returns the flattened first record
    of the target when the lookup yields one, and the empty sequence when
    it yields none. So with [redirected.com] answering
    [v=spf1 ip4:9.10.11.12 ?all], [ip4:1.2.3.4] and [-all] before the
    redirect leave no trace, and with [redirected.com] failing with an
    error object the result holds [v=spf1] alone. *)
Theorem redirect_discards_level :
  (∀ pre m post domain n (e : Env World),
     Forall (λ x, type x ≠ "redirect") pre →
     type m = "redirect" →
     ∃ c e1,
       forMechanisms resolveTxt (recursiveFlattenSpf resolveTxt) pre
         (mkLocals [] n None) e = Some (c, e1) ∧
       match c with
       | Normal (inl st1) =>
           recursiveFlattenSpf resolveTxt (pre ++ m :: post) domain n e =
             recursiveFlattenSpf resolveTxt [m] domain (dnsLookups st1) e1 ∧
           (∀ first others newLookupCount e2,
              resolveSpfTxtRecord resolveTxt (value m) (dnsLookups st1) e1
                = Some (Normal (first :: others, newLookupCount), e2) →
              recursiveFlattenSpf resolveTxt (pre ++ m :: post) domain n e =
              recursiveFlattenSpf resolveTxt (parsedMechanisms first)
                (value m) newLookupCount e2) ∧
           (∀ newLookupCount e2,
              resolveSpfTxtRecord resolveTxt (value m) (dnsLookups st1) e1
                = Some (Normal ([], newLookupCount), e2) →
              recursiveFlattenSpf resolveTxt (pre ++ m :: post) domain n e =
              Some (Normal ([], newLookupCount), e2))
       | Normal (inr _) => False
       | Throw message => thrownByCatch resolveTxt message
       end) ∧
  (∀ w w' log,
     resolveTxt "redirected.com" w
       = (Resolved [["v=spf1 ip4:9.10.11.12 ?all"]], w') →
     flattenSpf resolveTxt
       (parsedMechanisms "v=spf1 ip4:1.2.3.4 -all redirect=redirected.com")
       "example.com" (mkEnv w log)
     = Some (Normal [mkMechanism "+" "v" "spf1";
                     mkMechanism "+" "ip4" "9.10.11.12";
                     mkMechanism "?" "all" "all"],
             mkEnv w' (log ++ ["redirected.com"]))) ∧
  (∀ w w' code log,
     resolveTxt "redirected.com" w = (Rejected code, w') →
     flattenSpf resolveTxt
       (parsedMechanisms "v=spf1 ip4:1.2.3.4 -all redirect=redirected.com")
       "example.com" (mkEnv w log)
     = Some (Normal [mkMechanism "+" "v" "spf1"],
             mkEnv w' (log ++ ["redirected.com"]))).
Proof.
  split_and!.
  - intros pre m post domain n e Hpre Hm.
    destruct (forMechanisms_completes pre n e Hpre)
      as ([[st1|result]|message] & e1 & Hrun & Hc);
      [|done|by eexists _, e1].
    eexists _, e1. split; [done|].
    pose proof (level_at_redirect pre m post domain n e st1 e1 Hm Hrun)
      as Hlevel.
    pose proof (level_at_redirect [] m [] domain (dnsLookups st1) e1
                  (mkLocals [] (dnsLookups st1) None) e1 Hm eq_refl) as Halone.
    cbn [app dnsLookups] in Halone. split_and!.
    + by rewrite Hlevel, Halone.
    + intros first others c e2 Hres. by rewrite Hlevel, Hres.
    + intros c e2 Hres. by rewrite Hlevel, Hres.
  - intros w w' log Hdns. eval_parse.
    rewrite (flattenSpf_eq _ _ _
               [mkMechanism "+" "ip4" "9.10.11.12"; mkMechanism "?" "all" "all"]
               1 (mkEnv w' (log ++ ["redirected.com"]))); [reflexivity|].
    pose proof (forMechanisms_resolvesNothing (recursiveFlattenSpf resolveTxt)
                  [mkMechanism "+" "v" "spf1"; mkMechanism "+" "ip4" "1.2.3.4";
                   mkMechanism "-" "all" "all"]
                  (mkLocals [] 0 None) (mkEnv w log)
                  ltac:(by repeat constructor)) as Hrun.
    pose proof (level_at_redirect _
                  (mkMechanism "+" "redirect" "redirected.com") []
                  "example.com" 0 _ _ _ eq_refl Hrun) as Hlevel.
    cbn [app] in Hlevel. rewrite Hlevel. cbn [value dnsLookups].
    erewrite resolve_resolved; [|unfold MAX_DNS_LOOKUPS; lia|exact Hdns].
    eval_records. eval_parse.
    rewrite recursiveFlattenSpf_resolvesNothing by by repeat constructor.
    by eval_finish.
  - intros w w' code log Hdns. eval_parse.
    rewrite (flattenSpf_eq _ _ _ [] 1 (mkEnv w' (log ++ ["redirected.com"])));
      [reflexivity|].
    pose proof (forMechanisms_resolvesNothing (recursiveFlattenSpf resolveTxt)
                  [mkMechanism "+" "v" "spf1"; mkMechanism "+" "ip4" "1.2.3.4";
                   mkMechanism "-" "all" "all"]
                  (mkLocals [] 0 None) (mkEnv w log)
                  ltac:(by repeat constructor)) as Hrun.
    pose proof (level_at_redirect _
                  (mkMechanism "+" "redirect" "redirected.com") []
                  "example.com" 0 _ _ _ eq_refl Hrun) as Hlevel.
    cbn [app] in Hlevel. rewrite Hlevel. cbn [value dnsLookups].
    by erewrite resolve_rejected; [|unfold MAX_DNS_LOOKUPS; lia|exact Hdns].
Qed.

(** A level with no [redirect] completes as its loop does: when the loop
    runs to its end, it returns what the code after the loop makes of the
    variables. *)
Lemma level_without_redirect parsedSpf domain n (e : Env World) :
  Forall (λ m, type m ≠ "redirect") parsedSpf →
  ∃ c e1,
    forMechanisms resolveTxt (recursiveFlattenSpf resolveTxt) parsedSpf
      (mkLocals [] n None) e = Some (c, e1) ∧
    match c with
    | Normal (inl st1) =>
        finalAllMechanism st1 = ownAll parsedSpf ∧
        recursiveFlattenSpf resolveTxt parsedSpf domain n e
          = Some (Normal (finishLevel st1), e1)
    | Normal (inr _) => False
    | Throw message =>
        thrownByCatch resolveTxt message ∧
        recursiveFlattenSpf resolveTxt parsedSpf domain n e
          = Some (Throw message, e1)
    end.
Proof.
  intros Hno.
  destruct (forMechanisms_completes parsedSpf n e Hno)
    as ([[st1|result]|message] & e1 & Hrun & Hc); [|done|].
  - eexists _, e1. split; [done|]. destruct Hc as [Hall _]. split.
    + rewrite Hall. unfold ownAllOr. by destruct (ownAll parsedSpf).
    + rewrite recursiveFlattenSpf_unfold. unfold flattenLevel, bind.
      by rewrite Hrun.
  - eexists _, e1. split; [done|]. split; [done|].
    rewrite recursiveFlattenSpf_unfold. unfold flattenLevel, bind.
    by rewrite Hrun.
Qed.

End FlattenerFacts.

(** ** The level's own all, failing lookups, the version mechanism, duplicates *)

Section Merging.

Context {World : Type}.
Variable resolveTxt : string → World → TxtAnswer * World.

(** C3 (as amended): in a level that holds no [redirect], the loop
    completes; when it runs to its end with an accumulator, the level
    returns: when its last literal [all] is [a], the accumulator with
    duplicates removed and every mechanism of type [all] taken out,
    followed by [a]; when it holds no literal [all], the accumulator with
    duplicates removed and nothing else changed. The loop stops short only
    by the exception of the [catch] block, which the level passes on. With
    [included.com] answering [v=spf1 ip4:5.6.7.8 -all],
    [v=spf1 include:included.com ~all] flattens to a result ending in
    [~all], and [v=spf1 include:included.com] to one ending in [-all]. *)
Theorem own_all_precedence :
  (∀ parsedSpf domain n (e : Env World),
     Forall (λ m, type m ≠ "redirect") parsedSpf →
     ∃ c e1,
       forMechanisms resolveTxt (recursiveFlattenSpf resolveTxt) parsedSpf
         (mkLocals [] n None) e = Some (c, e1) ∧
       match c with
       | Normal (inl st1) =>
           ∃ result,
             recursiveFlattenSpf resolveTxt parsedSpf domain n e
               = Some (Normal (result, dnsLookups st1), e1) ∧
             (∀ pre a post,
                parsedSpf = pre ++ a :: post → type a = "all" →
                Forall (λ m, type m ≠ "all") post →
                result = filter (λ m, type m ≠ "all")
                                (keepFirst (flattenedMechanisms st1)) ++ [a] ∧
                last result = Some a) ∧
             (Forall (λ m, type m ≠ "all") parsedSpf →
              result = keepFirst (flattenedMechanisms st1))
       | Normal (inr _) => False
       | Throw message =>
           thrownByCatch resolveTxt message ∧
           recursiveFlattenSpf resolveTxt parsedSpf domain n e
             = Some (Throw message, e1)
       end) ∧
  (∀ w w' log,
     resolveTxt "included.com" w = (Resolved [["v=spf1 ip4:5.6.7.8 -all"]], w') →
     flattenSpf resolveTxt (parsedMechanisms "v=spf1 include:included.com ~all")
       "example.com" (mkEnv w log)
     = Some (Normal [mkMechanism "+" "v" "spf1";
                     mkMechanism "+" "ip4" "5.6.7.8";
                     mkMechanism "~" "all" "all"],
             mkEnv w' (log ++ ["included.com"])) ∧
     flattenSpf resolveTxt (parsedMechanisms "v=spf1 include:included.com")
       "example.com" (mkEnv w log)
     = Some (Normal [mkMechanism "+" "v" "spf1";
                     mkMechanism "+" "ip4" "5.6.7.8";
                     mkMechanism "-" "all" "all"],
             mkEnv w' (log ++ ["included.com"]))).
Proof.
  split.
  - intros parsedSpf domain n e Hno.
    destruct (level_without_redirect resolveTxt parsedSpf domain n e Hno)
      as ([[st1|result]|message] & e1 & Hrun & Hc);
      [|done|by eexists _, e1].
    destruct Hc as [Hall Hlevel]. eexists _, e1. split; [done|].
    exists (finishLevel st1).1. split_and!.
    + rewrite Hlevel. do 2 f_equal. unfold finishLevel.
      by destruct (finalAllMechanism st1).
    + intros pre a post -> Ha Hpost.
      unfold finishLevel. rewrite Hall, (ownAll_last pre a post Ha Hpost).
      rewrite removeDuplicates_keepFirst. cbn [fst]. split; [done|].
      apply last_snoc.
    + intros Hnone. unfold finishLevel.
      rewrite Hall, (ownAll_none _ Hnone). apply removeDuplicates_keepFirst.
  - intros w w' log Hdns. split.
    + eval_parse.
      rewrite (flattenSpf_eq _ _ _ _
                 [mkMechanism "+" "ip4" "5.6.7.8"; mkMechanism "~" "all" "all"]
                 1 (mkEnv w' (log ++ ["included.com"]))); [reflexivity|].
      rewrite recursiveFlattenSpf_unfold. unfold flattenLevel.
      erewrite bind_eq.
      2:{ rewrite forMechanisms_cons_plain by done.
          erewrite (forMechanisms_include_plain _ _ _ _ _ _ "v=spf1 ip4:5.6.7.8 -all");
            [|done|unfold MAX_DNS_LOOKUPS; cbn; lia|exact Hdns
             |by vm_compute|eval_parse; by repeat constructor].
          rewrite forMechanisms_resolvesNothing by by repeat constructor.
          reflexivity. }
      cbv beta match. unfold ret. by eval_finish.
    + eval_parse.
      rewrite (flattenSpf_eq _ _ _ _
                 [mkMechanism "+" "ip4" "5.6.7.8"; mkMechanism "-" "all" "all"]
                 1 (mkEnv w' (log ++ ["included.com"]))); [reflexivity|].
      rewrite recursiveFlattenSpf_unfold. unfold flattenLevel.
      erewrite bind_eq.
      2:{ rewrite forMechanisms_cons_plain by done.
          erewrite (forMechanisms_include_plain _ _ _ _ _ _ "v=spf1 ip4:5.6.7.8 -all");
            [|done|unfold MAX_DNS_LOOKUPS; cbn; lia|exact Hdns
             |by vm_compute|eval_parse; by repeat constructor].
          reflexivity. }
      cbv beta match. unfold ret. by eval_finish.
Qed.

(** C5: a lookup the resolver rejects with an error object is not passed
    on. Below the ceiling [resolveSpfTxtRecord] returns no record and the
    count plus one, with the query logged; the loop of
    [recursiveFlattenSpf] then goes on to the mechanisms after the
    [include], its accumulator and its [all] untouched; with the lookup of
    [error.com] rejected so, [v=spf1 include:error.com ~all] flattens to
    [v=spf1], [~all]; and with a resolver that rejects in no other way no
    call of [flattenSpf] throws. A rejection with [null] or [undefined] is
    passed on: the [catch] block reads [error.code] first, that read
    throws, and the exception leaves [resolveSpfTxtRecord], the loop and
    [flattenSpf], the query logged and nothing flattened. *)
Theorem lookup_failure_handling :
  (∀ hostname n (e : Env World) code w',
     n < 10 →
     resolveTxt hostname (world e) = (Rejected code, w') →
     resolveSpfTxtRecord resolveTxt hostname n e
       = Some (Normal ([], n + 1), mkEnv w' (queries e ++ [hostname]))) ∧
  (∀ self m rest st (e : Env World) code w',
     type m = "include" →
     dnsLookups st < 10 →
     resolveTxt (value m) (world e) = (Rejected code, w') →
     forMechanisms resolveTxt self (m :: rest) st e =
     forMechanisms resolveTxt self rest
       (mkLocals (flattenedMechanisms st) (dnsLookups st + 1)
                 (finalAllMechanism st))
       (mkEnv w' (queries e ++ [value m]))) ∧
  (∀ w w' code log,
     resolveTxt "error.com" w = (Rejected code, w') →
     flattenSpf resolveTxt (parsedMechanisms "v=spf1 include:error.com ~all")
       "example.com" (mkEnv w log)
     = Some (Normal [mkMechanism "+" "v" "spf1"; mkMechanism "~" "all" "all"],
             mkEnv w' (log ++ ["error.com"]))) ∧
  (rejectsWithErrorObject resolveTxt →
   ∀ parsedSpf domain (e : Env World),
     ∃ mechs e',
       flattenSpf resolveTxt parsedSpf domain e = Some (Normal mechs, e')) ∧
  (∀ hostname n (e : Env World) reason w',
     n < 10 →
     resolveTxt hostname (world e) = (RejectedNullish reason, w') →
     resolveSpfTxtRecord resolveTxt hostname n e
       = Some (Throw (typeErrorMessage reason "code"),
               mkEnv w' (queries e ++ [hostname]))) ∧
  (∀ self m rest st (e : Env World) reason w',
     type m = "include" →
     dnsLookups st < 10 →
     resolveTxt (value m) (world e) = (RejectedNullish reason, w') →
     forMechanisms resolveTxt self (m :: rest) st e =
     Some (Throw (typeErrorMessage reason "code"),
           mkEnv w' (queries e ++ [value m]))) ∧
  (∀ w w' reason log,
     resolveTxt "error.com" w = (RejectedNullish reason, w') →
     flattenSpf resolveTxt (parsedMechanisms "v=spf1 include:error.com ~all")
       "example.com" (mkEnv w log)
     = Some (Throw (typeErrorMessage reason "code"),
             mkEnv w' (log ++ ["error.com"]))).
Proof.
  split_and!.
  - intros hostname n e code w' Hn Hdns. by apply (resolve_rejected _ _ _ _ code).
  - intros self m rest st e code w' Hm Hn Hdns.
    by apply (forMechanisms_include_rejected _ _ _ _ _ _ code).
  - intros w w' code log Hdns. eval_parse.
    rewrite (flattenSpf_eq _ _ _ _ [mkMechanism "~" "all" "all"]
               1 (mkEnv w' (log ++ ["error.com"]))); [reflexivity|].
    rewrite recursiveFlattenSpf_unfold. unfold flattenLevel.
    erewrite bind_eq.
    2:{ rewrite forMechanisms_cons_plain by done.
        erewrite forMechanisms_include_rejected;
          [|done|unfold MAX_DNS_LOOKUPS; cbn; lia|exact Hdns].
        rewrite forMechanisms_resolvesNothing by by repeat constructor.
        reflexivity. }
    cbv beta match. unfold ret. by eval_finish.
  - intros Hgood parsedSpf domain e.
    destruct (flattenSpf_returns resolveTxt parsedSpf domain e Hgood)
      as (mechs & e' & _ & Hrun & _).
    by exists mechs, e'.
  - intros hostname n e reason w' Hn Hdns. by apply resolve_nullish.
  - intros self m rest st e reason w' Hm Hn Hdns.
    by apply forMechanisms_include_nullish.
  - intros w w' reason log Hdns. eval_parse.
    apply flattenSpf_throws.
    rewrite recursiveFlattenSpf_unfold. unfold flattenLevel, bind.
    rewrite forMechanisms_cons_plain by done.
    by erewrite forMechanisms_include_nullish;
      [|done|unfold MAX_DNS_LOOKUPS; cbn; lia|exact Hdns].
Qed.

(** C8: the second loop of a level removes from the accumulator every
    mechanism identical (same qualifier, type and value) to an earlier one:
    what it returns has no duplicates, is a subsequence of the accumulator
    with the same members, and grows by a mechanism exactly when no earlier
    one equals it; the loop of a level without [redirect] completes, and
    when it runs to its end (it does unless the [catch] block throws, an
    exception the level passes on) the level returns what the code after
    the loop makes of its variables, which is this list when the level has
    no [all] of its own, and this list without its [all] mechanisms, then
    the level's [all], when it has. With
    [included.com] answering [v=spf1 ip4:1.2.3.4],
    [v=spf1 ip4:1.2.3.4 include:included.com ~all] flattens to one
    [ip4:1.2.3.4] between [v=spf1] and [~all], after one lookup. *)
Theorem duplicates_removed :
  (∀ mechs,
     NoDup (removeDuplicates mechs [] ∅) ∧
     removeDuplicates mechs [] ∅ `sublist_of` mechs ∧
     (∀ m, m ∈ removeDuplicates mechs [] ∅ ↔ m ∈ mechs)) ∧
  (∀ mechs m,
     removeDuplicates (mechs ++ [m]) [] ∅ =
     if decide (m ∈ mechs) then removeDuplicates mechs [] ∅
     else removeDuplicates mechs [] ∅ ++ [m]) ∧
  (∀ parsedSpf domain n (e : Env World),
     Forall (λ m, type m ≠ "redirect") parsedSpf →
     ∃ c e1,
       forMechanisms resolveTxt (recursiveFlattenSpf resolveTxt) parsedSpf
         (mkLocals [] n None) e = Some (c, e1) ∧
       match c with
       | Normal (inl st1) =>
           recursiveFlattenSpf resolveTxt parsedSpf domain n e
             = Some (Normal (finishLevel st1), e1)
       | Normal (inr _) => False
       | Throw message =>
           thrownByCatch resolveTxt message ∧
           recursiveFlattenSpf resolveTxt parsedSpf domain n e
             = Some (Throw message, e1)
       end) ∧
  (∀ st,
     finishLevel st =
     (match finalAllMechanism st with
      | Some a =>
          filter (λ m, type m ≠ "all")
                 (removeDuplicates (flattenedMechanisms st) [] ∅) ++ [a]
      | None => removeDuplicates (flattenedMechanisms st) [] ∅
      end, dnsLookups st)) ∧
  (∀ w w' log,
     resolveTxt "included.com" w = (Resolved [["v=spf1 ip4:1.2.3.4"]], w') →
     recursiveFlattenSpf resolveTxt
       (parsedMechanisms "v=spf1 ip4:1.2.3.4 include:included.com ~all")
       "example.com" 0 (mkEnv w log)
     = Some (Normal ([mkMechanism "+" "ip4" "1.2.3.4";
                      mkMechanism "~" "all" "all"], 1),
             mkEnv w' (log ++ ["included.com"])) ∧
     flattenSpf resolveTxt
       (parsedMechanisms "v=spf1 ip4:1.2.3.4 include:included.com ~all")
       "example.com" (mkEnv w log)
     = Some (Normal [mkMechanism "+" "v" "spf1";
                     mkMechanism "+" "ip4" "1.2.3.4";
                     mkMechanism "~" "all" "all"],
             mkEnv w' (log ++ ["included.com"]))).
Proof.
  split_and!.
  - intros mechs. rewrite removeDuplicates_keepFirst. split_and!.
    + apply NoDup_keepFirst.
    + apply keepFirst_sublist.
    + intros m. apply elem_of_keepFirst.
  - intros mechs m. rewrite !removeDuplicates_keepFirst. apply keepFirst_snoc.
  - intros parsedSpf domain n e Hno.
    destruct (level_without_redirect resolveTxt parsedSpf domain n e Hno)
      as ([[st1|result]|message] & e1 & Hrun & Hc);
      [|done|by eexists _, e1].
    eexists _, e1. split; [done|]. by destruct Hc.
  - intros st. unfold finishLevel. by destruct (finalAllMechanism st).
  - intros w w' log Hdns.
    assert (recursiveFlattenSpf resolveTxt
              (parsedMechanisms "v=spf1 ip4:1.2.3.4 include:included.com ~all")
              "example.com" 0 (mkEnv w log)
            = Some (Normal ([mkMechanism "+" "ip4" "1.2.3.4";
                             mkMechanism "~" "all" "all"], 1),
                    mkEnv w' (log ++ ["included.com"]))) as Hrec.
    { eval_parse. rewrite recursiveFlattenSpf_unfold. unfold flattenLevel.
      erewrite bind_eq.
      2:{ rewrite !forMechanisms_cons_plain by done.
          erewrite (forMechanisms_include_plain _ _ _ _ _ _ "v=spf1 ip4:1.2.3.4");
            [|done|unfold MAX_DNS_LOOKUPS; cbn; lia|exact Hdns
             |by vm_compute|eval_parse; by repeat constructor].
          rewrite forMechanisms_resolvesNothing by by repeat constructor.
          reflexivity. }
      cbv beta match. unfold ret. by eval_finish. }
    split; [done|]. by rewrite (flattenSpf_eq _ _ _ _ _ _ _ Hrec).
Qed.

(** C6 (as amended): every activation of [recursiveFlattenSpf], at any
    count, completes, and none returns a mechanism of type [v];
    [flattenSpf] puts in front of the recursive result the first mechanism
    of the record it was given that has type [v] and value [spf1], and
    nothing when the record has none, whatever other [v] mechanisms it
    holds. An activation that does not return leaves by the exception of
    the [catch] block, which [flattenSpf] passes on. *)
Theorem version_reinstated parsedSpf domain (e : Env World) :
  (∀ n, ∃ c e',
     recursiveFlattenSpf resolveTxt parsedSpf domain n e = Some (c, e') ∧
     match c with
     | Normal (flattened, n') => Forall (λ m, type m ≠ "v") flattened
     | Throw message => thrownByCatch resolveTxt message
     end) ∧
  ∃ c e',
    recursiveFlattenSpf resolveTxt parsedSpf domain 0 e = Some (c, e') ∧
    match c with
    | Normal (flattened, n') =>
        Forall (λ m, type m ≠ "v") flattened ∧
        (∀ pre v post,
           parsedSpf = pre ++ v :: post →
           Forall (λ m, ¬ isVSpf1 m) pre → isVSpf1 v →
           flattenSpf resolveTxt parsedSpf domain e
             = Some (Normal (v :: flattened), e')) ∧
        (Forall (λ m, ¬ isVSpf1 m) parsedSpf →
         flattenSpf resolveTxt parsedSpf domain e = Some (Normal flattened, e'))
    | Throw message =>
        thrownByCatch resolveTxt message ∧
        flattenSpf resolveTxt parsedSpf domain e = Some (Throw message, e')
    end.
Proof.
  split.
  - intros n.
    destruct (recursiveFlattenSpf_accounted resolveTxt parsedSpf domain n e)
      as (c & e' & new & Hrun & _ & _ & Hc).
    exists c, e'. split; [done|].
    destruct c as [[flattened n']|message]; [|done]. by destruct Hc.
  - destruct (recursiveFlattenSpf_accounted resolveTxt parsedSpf domain 0 e)
      as ([[flattened n']|message] & e' & new & Hrun & _ & _ & Hc).
    + destruct Hc as [_ Hnov]. eexists _, e'. split; [done|]. split_and!.
      * done.
      * intros pre v post -> Hpre Hv.
        rewrite (flattenSpf_eq _ _ _ _ _ _ _ Hrun).
        by rewrite (find_isVSpf1_app _ _ Hpre), (find_isVSpf1_here _ _ Hv).
      * intros Hnone.
        by rewrite (flattenSpf_eq _ _ _ _ _ _ _ Hrun),
          (find_isVSpf1_none _ Hnone).
    + eexists _, e'. split; [done|]. split; [done|].
      by apply flattenSpf_throws.
Qed.

End Merging.

(** ** Records that resolve nothing *)

Section PlainRecords.

Context {World : Type}.
Variable resolveTxt : string → World → TxtAnswer * World.

(** C4 (as amended): flattening the parse of a record with no [include] and
    no [redirect] issues no query and leaves the lookup count at 0; it
    returns the record's first [v=spf1] if it has one, then its other
    mechanisms that are neither [v] nor [all] with duplicates removed, then
    its last [all] if it has one. That is the parse unchanged when the
    parse is in plain order: [v=spf1] first if at all, distinct mechanisms,
    [all] last if at all. *)
Theorem plain_record_flattens_to_itself spfRecord parsed domain (e : Env World) :
  parseSpf spfRecord = Normal parsed →
  Forall resolvesNothing parsed →
  let body :=
    match ownAll parsed with
    | Some a => keepFirst (filter pushedVerbatim parsed) ++ [a]
    | None => keepFirst (filter pushedVerbatim parsed)
    end in
  recursiveFlattenSpf resolveTxt parsed domain 0 e = Some (Normal (body, 0), e) ∧
  flattenSpf resolveTxt parsed domain e
    = Some (Normal
              (option_list (List.find (λ m, bool_decide (isVSpf1 m)) parsed) ++ body),
            e) ∧
  (inPlainOrder parsed →
   flattenSpf resolveTxt parsed domain e = Some (Normal parsed, e)).
Proof.
  intros _ Hno body.
  pose proof (recursiveFlattenSpf_resolvesNothing resolveTxt parsed domain 0 e Hno)
    as Hrec.
  assert (finishLevel (mkLocals (filter pushedVerbatim parsed) 0 (ownAll parsed))
          = (body, 0)) as Hfin.
  { unfold finishLevel, body.
    cbn [flattenedMechanisms dnsLookups finalAllMechanism].
    rewrite removeDuplicates_keepFirst.
    destruct (ownAll parsed) as [a|]; [|done].
    rewrite (filter_Forall_id (λ m, type m ≠ "all")); [done|].
    apply Forall_keepFirst, Forall_forall. intros m Hm.
    by apply list_elem_of_filter in Hm as [[_ ?] _]. }
  split_and!.
  - by rewrite Hrec, Hfin.
  - rewrite Hfin in Hrec. rewrite (flattenSpf_eq _ _ _ _ _ _ _ Hrec).
    do 2 f_equal. unfold isVSpf1. by destruct (List.find _ parsed).
  - intros (vs & body' & al & -> & Hvs & Hbody & Hdup & Hal).
    rewrite finishLevel_plain_order in Hrec by done.
    rewrite (flattenSpf_eq _ _ _ _ _ _ _ Hrec). do 2 f_equal.
    assert (Forall (λ m, ¬ isVSpf1 m) (body' ++ al)) as Hnov.
    { apply Forall_app. split.
      - eapply Forall_impl; [done|]. by intros m [? _] [? _].
      - destruct Hal as [->|(a & -> & Ha)]; [done|].
        apply Forall_singleton. intros [Hv _]. by rewrite Ha in Hv. }
    destruct Hvs as [->|(v & -> & Hv)]; cbn [app].
    + by rewrite (find_isVSpf1_none _ Hnov).
    + by rewrite (find_isVSpf1_here v _ Hv).
Qed.

End PlainRecords.

(** ** Concrete runs *)

(** The cases of the test suite, on the stubbed resolver. *)
Example test_parse_qualifiers :
  parseSpf "v=spf1 +a ?mx -ptr ~all"
  = Normal [mkMechanism "+" "v" "spf1"; mkMechanism "+" "a" "";
            mkMechanism "?" "mx" ""; mkMechanism "-" "ptr" "";
            mkMechanism "~" "all" "all"].
Proof. reflexivity. Qed.

Example test_parse_empty :
  parseSpf "" = Throw "Invalid SPF record provided. Must be a non-empty string.".
Proof. reflexivity. Qed.

Example test_no_includes :
  flattenText [] "v=spf1 ip4:1.2.3.4 ~all"
  = Some (Normal [mkMechanism "+" "v" "spf1"; mkMechanism "+" "ip4" "1.2.3.4";
                  mkMechanism "~" "all" "all"], noQueries).
Proof. vm_compute. reflexivity. Qed.

Example test_nested_includes :
  flattenText [("level1.com", Resolved [["v=spf1 include:level2.com"]]);
               ("level2.com", Resolved [["v=spf1 ip4:10.0.0.1 ~all"]])]
              "v=spf1 include:level1.com -all"
  = Some (Normal [mkMechanism "+" "v" "spf1"; mkMechanism "+" "ip4" "10.0.0.1";
                  mkMechanism "-" "all" "all"],
          mkEnv tt ["level1.com"; "level2.com"]).
Proof. vm_compute. reflexivity. Qed.

Example test_multiple_includes :
  flattenText [("inc1.com", Resolved [["v=spf1 ip4:1.1.1.1"]]);
               ("inc2.com", Resolved [["v=spf1 ip4:2.2.2.2"]])]
              "v=spf1 include:inc1.com include:inc2.com ~all"
  = Some (Normal [mkMechanism "+" "v" "spf1"; mkMechanism "+" "ip4" "1.1.1.1";
                  mkMechanism "+" "ip4" "2.2.2.2"; mkMechanism "~" "all" "all"],
          mkEnv tt ["inc1.com"; "inc2.com"]).
Proof. vm_compute. reflexivity. Qed.

Example test_non_spf_txt :
  flattenText [("empty.com", Resolved [["some other txt record"]]);
               ("no-record.com", Resolved [])]
              "v=spf1 include:empty.com include:no-record.com ~all"
  = Some (Normal [mkMechanism "+" "v" "spf1"; mkMechanism "~" "all" "all"],
          mkEnv tt ["empty.com"; "no-record.com"]).
Proof. vm_compute. reflexivity. Qed.

Example test_lookup_limit :
  flattenText overLimitTable overLimitRecord
  = Some (Normal ([mkMechanism "+" "v" "spf1"] ++
                  ((λ i, mkMechanism "+" "ip4" ("1.1.1." +:+ i))
                     <$> ["0"; "1"; "2"; "3"; "4"; "5"; "6"; "7"; "8"; "9"]) ++
                  [mkMechanism "~" "all" "all"]),
          mkEnv tt (fst <$> tenDomains)).
Proof. vm_compute. reflexivity. Qed.

(** An include that names its own domain: the lookups stop at the ceiling. *)
Example cyclic_include_stops :
  flattenText [("loop.example", Resolved [["v=spf1 ip4:1.2.3.4 include:loop.example"]])]
              "v=spf1 include:loop.example ~all"
  = Some (Normal [mkMechanism "+" "v" "spf1"; mkMechanism "+" "ip4" "1.2.3.4";
                  mkMechanism "~" "all" "all"],
          mkEnv tt (replicate 10 "loop.example")).
Proof. vm_compute. reflexivity. Qed.

(** C7, what holds of it and where the code departs from it. [parseSpf]
    returns on every non-empty string, the k-th mechanism being the
    callback's result on the k-th token; tokens are the non-empty pieces
    between runs of white space, in order; a leading [+], [-], [~] or [?] is
    the qualifier, [+] otherwise; a remainder with a [:] splits at its
    first [:], the value keeping any further [:]; a remainder with neither
    [:] nor [=] is the type, with value [all] for [all] and the empty value
    otherwise. But a remainder with [=] and no [:] does not split in two at
    its first [=]: the value is the text between the first [=] and the
    second, and what follows a second [=] is lost, as in [redirect=a=b]. *)
Theorem parseSpf_drops_after_second_equals :
  (∀ spfRecord,
     spfRecord ≠ "" →
     parseSpf spfRecord = Normal (parseMechanism <$> mechanismStrings spfRecord)) ∧
  (∀ spfRecord,
     Forall (λ token, token ≠ "" ∧ anySpace token = false)
            (mechanismStrings spfRecord) ∧
     String.concat "" (mechanismStrings spfRecord) = withoutSpaces spfRecord) ∧
  (∀ c rest,
     c ∈ ["+"; "-"; "~"; "?"]%char →
     parseMechanism (String c rest) = typeAndValue (String c "") rest) ∧
  (∀ c rest,
     c ∉ ["+"; "-"; "~"; "?"]%char →
     parseMechanism (String c rest) = typeAndValue "+" (String c rest)) ∧
  (∀ qualifier rest,
     includes ":" rest = true →
     ∃ type value,
       rest = type +:+ ":" +:+ value ∧ includes ":" type = false ∧
       typeAndValue qualifier rest = mkMechanism qualifier type value) ∧
  (∀ qualifier rest,
     includes ":" rest = false → includes "=" rest = false →
     typeAndValue qualifier rest =
     mkMechanism qualifier rest (if bool_decide (rest = "all") then "all" else "")) ∧
  (∀ qualifier rest,
     includes ":" rest = false → includes "=" rest = true →
     ∃ type value more,
       split "=" rest = type :: value :: more ∧
       rest = type +:+ "=" +:+ join "=" (value :: more) ∧
       includes "=" type = false ∧ includes "=" value = false ∧
       typeAndValue qualifier rest = mkMechanism qualifier type value) ∧
  parseSpf "v=spf1 redirect=a=b"
    = Normal [mkMechanism "+" "v" "spf1"; mkMechanism "+" "redirect" "a"] ∧
  parseMechanism "redirect=a=b" ≠ mkMechanism "+" "redirect" "a=b".
Proof.
  split_and!.
  - apply parseSpf_nonempty.
  - apply mechanismStrings_tokens.
  - intros c rest Hc. cbn [parseMechanism]. by rewrite bool_decide_eq_true_2.
  - intros c rest Hc. cbn [parseMechanism]. by rewrite bool_decide_eq_false_2.
  - apply typeAndValue_colon.
  - apply typeAndValue_bare.
  - apply typeAndValue_equals.
  - reflexivity.
  - discriminate.
Qed.

(** C9: an outer record with no [all] of its own, two includes whose
    records carry [-all] and [~all]: both survive in the flattened result,
    and the last mechanism is not an [all]. *)
Theorem several_all_mechanisms_survive :
  let table := [("a.example", Resolved [["v=spf1 -all"]]);
                ("b.example", Resolved [["v=spf1 ~all"]])] in
  let parsed :=
    parsedMechanisms "v=spf1 include:a.example include:b.example ip4:1.2.3.4" in
  let result := [mkMechanism "+" "v" "spf1"; mkMechanism "-" "all" "all";
                 mkMechanism "~" "all" "all"; mkMechanism "+" "ip4" "1.2.3.4"] in
  Forall (λ m, type m ≠ "all") parsed ∧
  flattenSpf (stubResolver table) parsed "example.com" noQueries
    = Some (Normal result, mkEnv tt ["a.example"; "b.example"]) ∧
  length (filter (λ m, type m = "all") result) = 2 ∧
  last result = Some (mkMechanism "+" "ip4" "1.2.3.4").
Proof.
  cbv zeta. split_and!; [|reflexivity..].
  vm_compute. by repeat constructor.
Qed.

(** C2 on the stubbed resolver: the redirect test of the suite. *)
Lemma redirect_returns_target_witness :
  flattenSpf (stubResolver redirectedTable)
    [mkMechanism "+" "v" "spf1"; mkMechanism "+" "redirect" "redirected.com"]
    "example.com" noQueries
  = Some (Normal [mkMechanism "+" "v" "spf1";
                  mkMechanism "+" "ip4" "9.10.11.12";
                  mkMechanism "?" "all" "all"],
          mkEnv tt ["redirected.com"]).
Proof.
  exact (proj2 (proj2 (redirect_returns_target (stubResolver redirectedTable))
                  tt tt [] eq_refl)).
Defined.

(** C10 on the stubbed resolver: what stood before the redirect is gone. *)
Lemma redirect_discards_level_witness :
  flattenSpf (stubResolver redirectedTable)
    (parsedMechanisms "v=spf1 ip4:1.2.3.4 -all redirect=redirected.com")
    "example.com" noQueries
  = Some (Normal [mkMechanism "+" "v" "spf1";
                  mkMechanism "+" "ip4" "9.10.11.12";
                  mkMechanism "?" "all" "all"],
          mkEnv tt ["redirected.com"]).
Proof.
  exact (proj1 (proj2 (redirect_discards_level (stubResolver redirectedTable)))
           tt tt [] eq_refl).
Defined.

(** C3 on the stubbed resolver: the outermost [all] wins. *)
Lemma own_all_precedence_witness :
  flattenSpf (stubResolver includedTable)
    (parsedMechanisms "v=spf1 include:included.com ~all") "example.com" noQueries
  = Some (Normal [mkMechanism "+" "v" "spf1";
                  mkMechanism "+" "ip4" "5.6.7.8";
                  mkMechanism "~" "all" "all"],
          mkEnv tt ["included.com"]).
Proof.
  exact (proj1 (proj2 (own_all_precedence (stubResolver includedTable))
                  tt tt [] eq_refl)).
Defined.

(** The failing lookup of the suite: a rejection with an error object. *)
Example rejection_with_error_object :
  flattenSpf (stubResolver [("error.com", Rejected "ESERVFAIL")])
    (parsedMechanisms "v=spf1 include:error.com ~all") "example.com" noQueries
  = Some (Normal [mkMechanism "+" "v" "spf1"; mkMechanism "~" "all" "all"],
          mkEnv tt ["error.com"]).
Proof. vm_compute. reflexivity. Qed.

(** The same lookup rejected with [undefined], and with [null]: the call
    throws. *)
Example rejection_without_error_object :
  flattenSpf (stubResolver [("error.com", RejectedNullish undefined)])
    (parsedMechanisms "v=spf1 include:error.com ~all") "example.com" noQueries
  = Some (Throw "Cannot read properties of undefined (reading 'code')",
          mkEnv tt ["error.com"]) ∧
  flattenSpf (stubResolver [("error.com", RejectedNullish null)])
    (parsedMechanisms "v=spf1 include:error.com ~all") "example.com" noQueries
  = Some (Throw "Cannot read properties of null (reading 'code')",
          mkEnv tt ["error.com"]).
Proof. split; vm_compute; reflexivity. Qed.

(** C8 on the stubbed resolver: the duplicate test of the suite. *)
Lemma duplicates_removed_witness :
  flattenSpf (stubResolver [("included.com", Resolved [["v=spf1 ip4:1.2.3.4"]])])
    (parsedMechanisms "v=spf1 ip4:1.2.3.4 include:included.com ~all")
    "example.com" noQueries
  = Some (Normal [mkMechanism "+" "v" "spf1";
                  mkMechanism "+" "ip4" "1.2.3.4";
                  mkMechanism "~" "all" "all"],
          mkEnv tt ["included.com"]).
Proof.
  exact (proj2 (proj2 (proj2 (proj2 (proj2
           (duplicates_removed
              (stubResolver [("included.com", Resolved [["v=spf1 ip4:1.2.3.4"]])])))))
           tt tt [] eq_refl)).
Defined.

(** C4 on a record in plain order: the first flatten test of the suite. *)
Lemma plain_record_flattens_to_itself_witness :
  parseSpf "v=spf1 ip4:1.2.3.4 ~all"
    = Normal [mkMechanism "+" "v" "spf1"; mkMechanism "+" "ip4" "1.2.3.4";
              mkMechanism "~" "all" "all"] ∧
  Forall resolvesNothing
    [mkMechanism "+" "v" "spf1"; mkMechanism "+" "ip4" "1.2.3.4";
     mkMechanism "~" "all" "all"] ∧
  flattenSpf (stubResolver [])
    [mkMechanism "+" "v" "spf1"; mkMechanism "+" "ip4" "1.2.3.4";
     mkMechanism "~" "all" "all"] "example.com" noQueries
  = Some (Normal [mkMechanism "+" "v" "spf1"; mkMechanism "+" "ip4" "1.2.3.4";
                  mkMechanism "~" "all" "all"], noQueries).
Proof.
  assert (Forall resolvesNothing
            [mkMechanism "+" "v" "spf1"; mkMechanism "+" "ip4" "1.2.3.4";
             mkMechanism "~" "all" "all"]) as Hno
    by (repeat constructor; discriminate).
  split_and!; [reflexivity|exact Hno|].
  apply (plain_record_flattens_to_itself (stubResolver [])
           "v=spf1 ip4:1.2.3.4 ~all" _ "example.com" noQueries eq_refl Hno).
  exists [mkMechanism "+" "v" "spf1"], [mkMechanism "+" "ip4" "1.2.3.4"],
         [mkMechanism "~" "all" "all"].
  split_and!; [reflexivity| | | |].
  - right. eexists. by split.
  - repeat constructor; discriminate.
  - apply NoDup_singleton.
  - right. eexists. by split.
Defined.

(** C6 on a record that starts with [v=spf1]. *)
Lemma version_reinstated_witness :
  ∃ flattened n' e',
    recursiveFlattenSpf (stubResolver []) (parsedMechanisms "v=spf1 a") "example.com"
      0 noQueries = Some (Normal (flattened, n'), e') ∧
    flattenSpf (stubResolver []) (parsedMechanisms "v=spf1 a") "example.com"
      noQueries = Some (Normal (mkMechanism "+" "v" "spf1" :: flattened), e').
Proof.
  destruct (proj2 (version_reinstated (stubResolver [])
                     (parsedMechanisms "v=spf1 a") "example.com" noQueries))
    as ([[flattened n']|message] & e' & Hrec & Hc).
  - destruct Hc as (_ & Hfront & _).
    exists flattened, n', e'. split; [exact Hrec|].
    apply (Hfront [] (mkMechanism "+" "v" "spf1") [mkMechanism "+" "a" ""]).
    + reflexivity.
    + constructor.
    + by split.
  - destruct Hc as [(hostname & w & reason & w' & Hdns & _) _].
    discriminate Hdns.
Defined.

(** ** More on the parser *)

Lemma anySpace_app a b : anySpace (a +:+ b) = anySpace a || anySpace b.
Proof.
  induction a as [|c a IH]; [done|].
  rewrite app_String_cons. cbn [anySpace]. by rewrite IH, orb_assoc.
Qed.

Lemma concat_cons (x : string) l :
  String.concat "" (x :: l) = x +:+ String.concat "" l.
Proof.
  destruct l as [|y l]; cbn [String.concat]; [|done].
  induction x as [|a x IH]; [done|]. by rewrite app_String_cons, <- IH.
Qed.

Lemma app_String_nil_r (a : string) : a +:+ "" = a.
Proof. induction a as [|c a IH]; [done|]. by rewrite app_String_cons, IH. Qed.

Lemma mechanismStrings_nil spfRecord :
  mechanismStrings spfRecord = [] ↔ withoutSpaces spfRecord = "".
Proof.
  destruct (mechanismStrings_tokens spfRecord) as [Htokens Hconcat].
  rewrite <- Hconcat. split; [by intros ->|].
  destruct (mechanismStrings spfRecord) as [|token l]; [done|].
  apply Forall_cons in Htokens as [[Hne _] _].
  rewrite concat_cons. by destruct token.
Qed.

(** X1: [parseSpf] rejects the empty string only: a string of white space
    alone is accepted and parses to no mechanism at all, and that is the
    only way to get the empty list. *)
Theorem parseSpf_nothing spfRecord :
  parseSpf spfRecord = Normal [] ↔
  spfRecord ≠ "" ∧ withoutSpaces spfRecord = "".
Proof.
  rewrite <- mechanismStrings_nil. unfold parseSpf, parsedMechanisms.
  case_bool_decide as Hs; [by split; [|intros [? _]]|].
  split.
  - intros [= Hnil]. split; [done|]. by apply fmap_nil_inv in Hnil.
  - by intros [_ ->].
Qed.

Lemma typeAndValue_qualifier q rest : qualifier (typeAndValue q rest) = q.
Proof.
  unfold typeAndValue. case_bool_decide; [done|].
  destruct (includes "=" rest); [done|]. by case_bool_decide.
Qed.

Lemma join_head_anySpace sep x l :
  anySpace (join sep (x :: l)) = false → anySpace x = false.
Proof.
  unfold join. destruct l as [|y l]; cbn [String.concat]; [done|].
  rewrite anySpace_app. by intros [? _]%orb_false_elim.
Qed.

Lemma typeAndValue_anySpace q rest :
  anySpace rest = false →
  includes ":" (type (typeAndValue q rest)) = false ∧
  anySpace (type (typeAndValue q rest)) = false ∧
  anySpace (value (typeAndValue q rest)) = false.
Proof.
  intros Hrest.
  destruct (includes ":" rest) eqn:Hc; [|destruct (includes "=" rest) eqn:He].
  - destruct (typeAndValue_colon q rest Hc) as (t & v & Heq & Ht & ->).
    rewrite Heq, !anySpace_app in Hrest.
    apply orb_false_elim in Hrest as [? [_ ?]%orb_false_elim]. by cbn.
  - destruct (typeAndValue_equals q rest Hc He)
      as (t & v & more & Hsplit & Heq & Ht & Hv & ->).
    pose proof Hc as Hc'. rewrite Heq in Hc'.
    rewrite Heq, !anySpace_app in Hrest.
    apply orb_false_elim in Hrest as [? [_ Hj]%orb_false_elim].
    apply join_head_anySpace in Hj. cbn. split_and!; [|done..].
    clear -Hc'. induction t as [|c t IH]; [done|].
    rewrite app_String_cons in Hc'. cbn [includes] in *.
    apply orb_false_elim in Hc' as [-> ?]. by apply IH.
  - rewrite (typeAndValue_bare q rest Hc He). cbn.
    split_and!; [done..|]. by case_bool_decide.
Qed.

(** X2: whatever the record, every mechanism [parseSpf] returns carries one
    of the four qualifiers, a type with no [:] in it, and neither white
    space in its type nor in its value. *)
Theorem parsed_mechanisms_shape spfRecord :
  Forall (λ m, qualifier m ∈ ["+"; "-"; "~"; "?"] ∧
               includes ":" (type m) = false ∧
               anySpace (type m) = false ∧ anySpace (value m) = false)
         (parsedMechanisms spfRecord).
Proof.
  unfold parsedMechanisms. apply Forall_fmap.
  destruct (mechanismStrings_tokens spfRecord) as [Htokens _].
  eapply Forall_impl; [exact Htokens|]. intros token [_ Hspace]. cbn.
  destruct token as [|c rest]; cbn [parseMechanism].
  - rewrite typeAndValue_qualifier. split; [set_solver|].
    by apply typeAndValue_anySpace.
  - cbn [anySpace] in Hspace. apply orb_false_elim in Hspace as [Hc Hrest].
    case_bool_decide as Hq.
    + rewrite typeAndValue_qualifier. split; [|by apply typeAndValue_anySpace].
      repeat (apply elem_of_cons in Hq as [->|Hq]; [set_solver|]).
      by apply elem_of_nil in Hq.
    + rewrite typeAndValue_qualifier. split; [set_solver|].
      apply typeAndValue_anySpace. cbn [anySpace]. by rewrite Hc, Hrest.
Qed.

(** ** What a flattened record is made of *)

Lemma finishLevel_FlatResult st :
  Forall resolved (flattenedMechanisms st) →
  (∀ a, finalAllMechanism st = Some a → type a = "all") →
  FlatResult (finishLevel st).1.
Proof.
  intros Hacc Hall. unfold finishLevel. rewrite removeDuplicates_keepFirst.
  destruct (finalAllMechanism st) as [a|]; cbn [fst].
  - specialize (Hall a eq_refl). split.
    + apply NoDup_app. split_and!.
      * apply NoDup_filter, NoDup_keepFirst.
      * intros m Hm Hin. apply list_elem_of_filter in Hm as [Hm _].
        apply list_elem_of_singleton in Hin as ->. done.
      * apply NoDup_singleton.
    + apply Forall_app. split.
      * by apply Forall_filter_keeps, Forall_keepFirst.
      * apply Forall_singleton. unfold resolved. by rewrite Hall.
  - split; [apply NoDup_keepFirst|by apply Forall_keepFirst].
Qed.

Lemma ownAll_Some mechs a : ownAll mechs = Some a → a ∈ mechs ∧ type a = "all".
Proof.
  unfold ownAll. intros Hlast. apply last_Some_elem_of in Hlast.
  by apply list_elem_of_filter in Hlast as [? ?].
Qed.

Section FlatFacts.

Context {World : Type}.
Variable resolveTxt : string → World → TxtAnswer * World.

Section FlatLevel.

Variable self : list Mechanism → string → nat → Run World Flattened.
Hypothesis self_flat :
  ∀ parsedSpf domain n e mechs n' e',
    self parsedSpf domain n e = Some (Normal (mechs, n'), e') → FlatResult mechs.

Lemma includeRecords_resolved records hostname st e st' e' :
  includeRecords self records hostname st e = Some (Normal st', e') →
  Forall resolved (flattenedMechanisms st) →
  Forall resolved (flattenedMechanisms st').
Proof.
  revert st e. induction records as [|record rest IH]; intros st e;
    cbn [includeRecords].
  - by intros [= <- _].
  - intros Hrun Hacc. apply bind_inv in Hrun as (parsed & e1 & _ & Hrun).
    apply bind_inv in Hrun as ([sub n] & e2 & Hself & Hrun).
    apply IH in Hrun; [done|]. cbn.
    apply Forall_app. split; [done|].
    apply Forall_filter_keeps. by apply self_flat in Hself as [_ ?].
Qed.

Lemma forMechanisms_resolved parsedSpf st e r e' :
  forMechanisms resolveTxt self parsedSpf st e = Some (Normal r, e') →
  Forall resolved (flattenedMechanisms st) →
  (∀ a, finalAllMechanism st = Some a → type a = "all") →
  match r with
  | inl st' =>
      Forall resolved (flattenedMechanisms st') ∧
      ∀ a, finalAllMechanism st' = Some a → type a = "all"
  | inr result => FlatResult result.1
  end.
Proof.
  revert st e. induction parsedSpf as [|mechanism rest IH]; intros st e;
    cbn [forMechanisms].
  - by intros [= <- _].
  - repeat case_decide.
    + apply IH.
    + intros Hrun _ _.
      apply bind_inv in Hrun as ([[|first others] n] & e1 & _ & Hrun).
      * injection Hrun as <- _. split; [apply NoDup_nil_2|constructor].
      * apply bind_inv in Hrun as (parsed & e2 & _ & Hrun).
        apply bind_inv in Hrun as ([sub n'] & e3 & Hself & Hrun).
        injection Hrun as <- _. by apply self_flat in Hself.
    + intros Hrun Hacc Hall.
      apply bind_inv in Hrun as ([records n] & e1 & _ & Hrun).
      apply bind_inv in Hrun as (st1 & e2 & Hinc & Hrun).
      pose proof (includeRecords_finalAll _ _ _ _ _ _ _ Hinc) as Hfin.
      apply includeRecords_resolved in Hinc; [|done].
      apply IH in Hrun; [done..|]. by rewrite Hfin.
    + intros Hrun Hacc Hall. apply IH in Hrun; [done..|].
      cbn. by intros a [= <-].
    + intros Hrun Hacc Hall. apply IH in Hrun; [done| |done].
      cbn. apply Forall_app. split; [done|]. by apply Forall_singleton.
Qed.

Lemma flattenLevel_FlatResult parsedSpf domain n e mechs n' e' :
  flattenLevel resolveTxt self parsedSpf domain n e
    = Some (Normal (mechs, n'), e') →
  FlatResult mechs.
Proof.
  unfold flattenLevel. intros Hrun.
  apply bind_inv in Hrun as (r & e1 & Hloop & Hrun).
  apply forMechanisms_resolved in Hloop; [|constructor|done].
  destruct r as [st|result]; injection Hrun as Hres _.
  - destruct Hloop as [Hacc Hall].
    pose proof (finishLevel_FlatResult st Hacc Hall) as Hflat.
    by rewrite Hres in Hflat.
  - by rewrite Hres in Hloop.
Qed.

End FlatLevel.

Lemma flattenFuel_FlatResult fuel parsedSpf domain n e mechs n' e' :
  flattenFuel resolveTxt fuel parsedSpf domain n e
    = Some (Normal (mechs, n'), e') →
  FlatResult mechs.
Proof.
  revert parsedSpf domain n e mechs n' e'.
  induction fuel as [|fuel IH]; [done|]. intros parsedSpf domain n e mechs n' e'.
  cbn [flattenFuel]. by apply flattenLevel_FlatResult.
Qed.

Lemma flattenSpf_resolvesNothing parsedSpf domain (e : Env World) :
  Forall resolvesNothing parsedSpf →
  flattenSpf resolveTxt parsedSpf domain e =
  Some (Normal
          (option_list (List.find (λ m, bool_decide (isVSpf1 m)) parsedSpf) ++
           plainBody parsedSpf), e).
Proof.
  intros Hno.
  pose proof (recursiveFlattenSpf_resolvesNothing resolveTxt parsedSpf domain 0 e
                Hno) as Hrec.
  assert (finishLevel (mkLocals (filter pushedVerbatim parsedSpf) 0
                                (ownAll parsedSpf))
          = (plainBody parsedSpf, 0)) as Hfin.
  { unfold finishLevel, plainBody.
    cbn [flattenedMechanisms dnsLookups finalAllMechanism].
    rewrite removeDuplicates_keepFirst.
    destruct (ownAll parsedSpf) as [a|]; [|done].
    rewrite (filter_Forall_id (λ m, type m ≠ "all")); [done|].
    apply Forall_keepFirst, Forall_forall. intros m Hm.
    by apply list_elem_of_filter in Hm as [[_ ?] _]. }
  rewrite Hfin in Hrec. rewrite (flattenSpf_eq _ _ _ _ _ _ _ Hrec).
  do 2 f_equal. unfold isVSpf1. by destruct (List.find _ parsedSpf).
Qed.

Lemma flattenSpf_plain_order parsedSpf domain (e : Env World) :
  Forall resolvesNothing parsedSpf → inPlainOrder parsedSpf →
  flattenSpf resolveTxt parsedSpf domain e = Some (Normal parsedSpf, e).
Proof.
  intros Hno (vs & body & al & -> & Hvs & Hbody & Hdup & Hal).
  pose proof (recursiveFlattenSpf_resolvesNothing resolveTxt _ domain 0 e Hno)
    as Hrec.
  rewrite finishLevel_plain_order in Hrec by done.
  rewrite (flattenSpf_eq _ _ _ _ _ _ _ Hrec). do 2 f_equal.
  assert (Forall (λ m, ¬ isVSpf1 m) (body ++ al)) as Hnov.
  { apply Forall_app. split.
    - eapply Forall_impl; [done|]. by intros m [? _] [? _].
    - destruct Hal as [->|(a & -> & Ha)]; [done|].
      apply Forall_singleton. intros [Hv _]. by rewrite Ha in Hv. }
  destruct Hvs as [->|(v & -> & Hv)]; cbn [app].
  - by rewrite (find_isVSpf1_none _ Hnov).
  - by rewrite (find_isVSpf1_here v _ Hv).
Qed.

Lemma find_isVSpf1_Some mechs v :
  List.find (λ mech, bool_decide (type mech = "v" ∧ value mech = "spf1")) mechs
  = Some v →
  v ∈ mechs ∧ isVSpf1 v.
Proof.
  intros Hfind. apply List.find_some in Hfind as [Hin Hv].
  split; [by apply list_elem_of_In|]. by apply bool_decide_eq_true in Hv.
Qed.

(** What [flattenSpf] returns, whatever it was given: no mechanism twice,
    none left to resolve, a [v] at the front or nowhere. *)
Lemma flattenSpf_flat parsedSpf domain (e : Env World) result e' :
  flattenSpf resolveTxt parsedSpf domain e = Some (Normal result, e') →
  NoDup result ∧
  Forall resolvesNothing result ∧
  ∃ vs body, result = vs ++ body ∧ Forall resolved body ∧
             (vs = [] ∨ ∃ v, vs = [v] ∧ isVSpf1 v ∧ v ∈ parsedSpf).
Proof.
  intros Hflat. unfold flattenSpf in Hflat.
  apply bind_inv in Hflat as ([flattened n'] & e1 & Hrun & Hret).
  injection Hret as <- _.
  pose proof (flattenFuel_FlatResult _ _ _ _ _ _ _ _ Hrun) as [Hdup Hres].
  assert (Forall resolvesNothing flattened) as Hno.
  { eapply Forall_impl; [exact Hres|]. by intros m (_ & ? & ?). }
  destruct (List.find _ parsedSpf) as [v|] eqn:Hfind.
  - apply find_isVSpf1_Some in Hfind as [Hin Hv]. split_and!.
    + apply NoDup_cons. split; [|done]. intros Hv'.
      rewrite Forall_forall in Hres. destruct (Hres v Hv') as [Hnv _].
      by destruct Hv.
    + constructor; [|done]. destruct Hv as [Hv _]. split; by rewrite Hv.
    + exists [v], flattened. split_and!; [done..|]. right. by exists v.
  - split_and!; [done..|].
    exists [], flattened. split_and!; [done..|]. by left.
Qed.

(** A list with nothing to resolve flattens without a lookup, to a list
    that flattens to itself. *)
Lemma flattenSpf_settles result domain2 (e2 : Env World) :
  Forall resolvesNothing result →
  ∃ settled,
    flattenSpf resolveTxt result domain2 e2 = Some (Normal settled, e2) ∧
    ∀ domain3 (e3 : Env World),
      flattenSpf resolveTxt settled domain3 e3 = Some (Normal settled, e3).
Proof.
  intros Hno.
  eexists. split; [by apply flattenSpf_resolvesNothing|].
  intros domain3 e3. apply flattenSpf_plain_order.
  - rewrite Forall_forall in Hno. apply Forall_app. split.
    + destruct (List.find _ result) as [v|] eqn:Hfind; [|done].
      apply find_isVSpf1_Some in Hfind as [Hin _].
      apply Forall_singleton. by apply Hno.
    + unfold plainBody. apply Forall_forall. intros m Hm. apply Hno.
      destruct (ownAll result) as [a|] eqn:Hown.
      * apply elem_of_app in Hm as [Hm|Hm].
        -- rewrite elem_of_keepFirst in Hm.
           by apply list_elem_of_filter in Hm as [_ ?].
        -- apply list_elem_of_singleton in Hm as ->.
           by apply ownAll_Some in Hown as [? _].
      * rewrite elem_of_keepFirst in Hm.
        by apply list_elem_of_filter in Hm as [_ ?].
  - exists (option_list (List.find (λ m, bool_decide (isVSpf1 m)) result)),
           (keepFirst (filter pushedVerbatim result)),
           (option_list (ownAll result)).
    split_and!.
    + unfold plainBody.
      destruct (ownAll result); cbn [option_list]; by rewrite ?app_nil_r.
    + destruct (List.find _ result) as [v|] eqn:Hfind; [|by left].
      right. exists v. split; [done|].
      by apply find_isVSpf1_Some in Hfind as [_ ?].
    + apply Forall_keepFirst, Forall_forall. intros m Hm.
      by apply list_elem_of_filter in Hm as [? _].
    + apply NoDup_keepFirst.
    + destruct (ownAll result) as [a|] eqn:Hown; [|by left].
      right. exists a. split; [done|]. by apply ownAll_Some in Hown as [_ ?].
Qed.



End FlatFacts.

(** ** Writing a record and reading it back *)

Lemma split_app_sep sep t v :
  includes sep t = false → split sep (t +:+ String sep v) = t :: split sep v.
Proof.
  induction t as [|c t IH]; intros Ht.
  - rewrite app_String_nil. cbn [split]. by rewrite Ascii.eqb_refl.
  - cbn [includes] in Ht. apply orb_false_elim in Ht as [Hc Ht].
    rewrite app_String_cons. cbn [split]. by rewrite Hc, (IH Ht).
Qed.

Lemma splitSpaces_token t rest :
  anySpace t = false →
  splitSpaces (t +:+ rest) =
  match splitSpaces rest with
  | h :: tl => (t +:+ h) :: tl
  | [] => [t]
  end.
Proof.
  induction t as [|c t IH]; intros Ht.
  - rewrite app_String_nil. pose proof (splitSpaces_nonempty rest) as Hne.
    destruct (splitSpaces rest); [done|]. by rewrite app_String_nil.
  - cbn [anySpace] in Ht. apply orb_false_elim in Ht as [Hc Ht].
    rewrite app_String_cons. cbn [splitSpaces]. rewrite Hc, (IH Ht).
    by destruct (splitSpaces rest).
Qed.

Lemma join_cons_cons sep x y l :
  join sep (x :: y :: l) = x +:+ sep +:+ join sep (y :: l).
Proof. done. Qed.

Lemma headIsSpace_join (token : string) l :
  token ≠ "" → anySpace token = false →
  headIsSpace (join " " (token :: l)) = false.
Proof.
  destruct token as [|c token]; [done|]. intros _ Hs.
  cbn [anySpace] in Hs. apply orb_false_elim in Hs as [Hc _].
  destruct l; [done|]. by rewrite join_cons_cons, app_String_cons.
Qed.

Lemma splitSpaces_join tokens :
  tokens ≠ [] →
  Forall (λ token, token ≠ "" ∧ anySpace token = false) tokens →
  splitSpaces (join " " tokens) = tokens.
Proof.
  intros Hne Htokens.
  induction Htokens as [|token l [Htoken Hspace] Hl IH]; [done|].
  destruct l as [|token' l].
  - change (join " " [token]) with token.
    rewrite <- (app_String_nil_r token) at 1.
    rewrite (splitSpaces_token _ _ Hspace). cbn [splitSpaces].
    by rewrite app_String_nil_r.
  - rewrite join_cons_cons, (splitSpaces_token _ _ Hspace).
    rewrite app_String_cons, app_String_nil. cbn [splitSpaces isSpace].
    apply Forall_cons in Hl as [[Htoken' Hspace'] _].
    change (isSpace " ") with true. cbn match.
    rewrite (headIsSpace_join _ _ Htoken' Hspace'), IH by done.
    by rewrite app_String_nil_r.
Qed.

(** Tokens joined with single spaces split back into the same tokens. *)
Lemma mechanismStrings_join tokens :
  Forall (λ token, token ≠ "" ∧ anySpace token = false) tokens →
  mechanismStrings (join " " tokens) = tokens.
Proof.
  intros Htokens. unfold mechanismStrings.
  destruct tokens as [|token l]; [done|].
  rewrite splitSpaces_join by done. apply filter_Forall_id.
  eapply Forall_impl; [exact Htokens|]. intros [|c t] [Hne _]; [done|].
  cbn. lia.
Qed.

Lemma parseMechanism_qualified q rest :
  q ∈ ["+"; "-"; "~"; "?"] →
  (q = "+" → headIsQualifier rest = false) →
  parseMechanism ((if bool_decide (q = "+") then "" else q) +:+ rest)
  = typeAndValue q rest.
Proof.
  intros Hq Hhead.
  repeat (apply elem_of_cons in Hq as [->|Hq]);
    [|done..|by apply elem_of_nil in Hq].
  rewrite bool_decide_eq_true_2, app_String_nil by done.
  specialize (Hhead eq_refl). destruct rest as [|c rest]; [done|].
  cbn [parseMechanism]. cbn [headIsQualifier] in Hhead. by rewrite Hhead.
Qed.

Lemma typeAndValue_written q t v :
  includes ":" t = false →
  typeAndValue q (t +:+ String ":" v) = mkMechanism q t v.
Proof.
  intros Ht. unfold typeAndValue. rewrite (split_app_sep ":" t v Ht).
  pose proof (split_nonempty ":" v) as Hne.
  pose proof (join_split ":" v) as Hj.
  rewrite bool_decide_eq_true_2
    by (destruct (split ":" v); [done|cbn [length]; lia]).
  cbn [head tail default]. by rewrite Hj.
Qed.

Lemma headIsQualifier_written t v :
  headIsQualifier t = false → headIsQualifier (t +:+ String ":" v) = false.
Proof. by destruct t. Qed.

Lemma parseMechanism_mechanismText m :
  readsBack m → parseMechanism (mechanismText m) = m.
Proof.
  destruct m as [q t v]. unfold readsBack, writtenBare, mechanismText.
  cbn [qualifier type value].
  intros (Hq & Hhead & Hcolon & _ & _ & Hbare).
  destruct (decide (v = "")) as [->|Hv]; [|destruct (decide (v = "all")) as [->|Ha]].
  - rewrite bool_decide_eq_false_2 by (by intros ?). cbn [andb].
    destruct Hbare as (Heq & Hall & _); [by left|].
    rewrite (parseMechanism_qualified q t Hq Hhead).
    rewrite (typeAndValue_bare q t Hcolon Heq). f_equal.
    case_bool_decide as Ht; [|done]. by apply Hall in Ht.
  - rewrite (bool_decide_eq_false_2 ("all" ≠ "all")) by (by intros ?).
    rewrite andb_false_r.
    destruct Hbare as (Heq & Hall & _); [by right|].
    rewrite (parseMechanism_qualified q t Hq Hhead).
    rewrite (typeAndValue_bare q t Hcolon Heq). f_equal.
    rewrite bool_decide_eq_true_2; [done|]. by apply Hall.
  - rewrite !bool_decide_eq_true_2 by done. cbn [andb].
    rewrite app_String_assoc, app_String_cons, app_String_nil.
    rewrite (parseMechanism_qualified q _ Hq)
      by (intros Hplus; by apply headIsQualifier_written, Hhead).
    by apply typeAndValue_written.
Qed.

Lemma mechanismText_token m :
  readsBack m → mechanismText m ≠ "" ∧ anySpace (mechanismText m) = false.
Proof.
  destruct m as [q t v]. unfold readsBack, writtenBare, mechanismText.
  cbn [qualifier type value].
  intros (Hq & _ & _ & Hst & Hsv & Hbare).
  assert (anySpace (if bool_decide (q = "+") then "" else q) = false) as Hsq.
  { repeat (apply elem_of_cons in Hq as [->|Hq]); [done..|].
    by apply elem_of_nil in Hq. }
  destruct (bool_decide (v ≠ "") && bool_decide (v ≠ "all")) eqn:Hshown.
  - split.
    + destruct (if bool_decide (q = "+") then "" else q), t; done.
    + rewrite !anySpace_app, Hsq, Hst. cbn. by rewrite Hsv.
  - split; [|by rewrite anySpace_app, Hsq, Hst].
    destruct Hbare as (_ & _ & Hne).
    { apply andb_false_iff in Hshown as [Hf|Hf];
        apply bool_decide_eq_false in Hf; [left|right];
        by destruct (decide (v = "")), (decide (v = "all")); try tauto. }
    destruct (decide (q = "+")) as [->|Hplus].
    * rewrite bool_decide_eq_true_2, app_String_nil by done.
      intros ->. by apply Hne.
    * rewrite bool_decide_eq_false_2 by done.
      repeat (apply elem_of_cons in Hq as [->|Hq]); [done..|].
      by apply elem_of_nil in Hq.
Qed.

(** X3: the text the command line writes for a list of mechanisms reads
    back, through [parseSpf], as the same list, provided each mechanism
    reads back. So does the mechanism [v=spf1], written [v:spf1]. An empty
    list is written as the empty string, which [parseSpf] rejects. *)
Theorem written_record_reads_back flattened :
  Forall readsBack flattened →
  parsedMechanisms (flattenedSpfString flattened) = flattened ∧
  (flattened ≠ [] → parseSpf (flattenedSpfString flattened) = Normal flattened) ∧
  (flattened = [] →
   parseSpf (flattenedSpfString flattened)
   = Throw "Invalid SPF record provided. Must be a non-empty string.") ∧
  (mkMechanism "+" "v" "spf1" ∈ flattened →
   ∃ before after,
     flattenedSpfString flattened = before +:+ "v:spf1" +:+ after).
Proof.
  intros Hall.
  assert (parsedMechanisms (flattenedSpfString flattened) = flattened) as Hback.
  { unfold parsedMechanisms, flattenedSpfString.
    rewrite mechanismStrings_join.
    - rewrite <- list_fmap_compose.
      induction Hall as [|m l Hm _ IH]; [done|].
      cbn [fmap list_fmap]. f_equal; [|done].
      by apply parseMechanism_mechanismText.
    - apply Forall_fmap. eapply Forall_impl; [exact Hall|].
      intros m Hm. by apply mechanismText_token. }
  split_and!; [done| | |].
  - intros Hne. rewrite parseSpf_nonempty; [by rewrite Hback|].
    destruct Hall as [|m l Hm _]; [done|].
    destruct (mechanismText_token m Hm) as [Htoken _].
    unfold flattenedSpfString. cbn [fmap list_fmap].
    destruct (mechanismText m); [done|]. by destruct (mechanismText <$> l).
  - by intros ->.
  - clear. intros Hin. unfold flattenedSpfString.
    induction flattened as [|m l IH]; [by apply elem_of_nil in Hin|].
    cbn [fmap list_fmap].
    apply elem_of_cons in Hin as [<-|Hin].
    + exists "".
      change (mechanismText (mkMechanism "+" "v" "spf1")) with "v:spf1".
      destruct l as [|m' l]; cbn [fmap list_fmap].
      * by exists "".
      * eexists. rewrite join_cons_cons. reflexivity.
    + destruct (IH Hin) as (before & after & Heq).
      destruct l as [|m' l]; [by apply elem_of_nil in Hin|].
      exists (mechanismText m +:+ " " +:+ before), after.
      cbn [fmap list_fmap] in *. rewrite join_cons_cons, Heq.
      by rewrite !app_String_assoc.
Qed.

(** ** The validator *)

Lemma elem_of_pushIf x (c : bool) msg errs :
  x ∈ Validator.pushIf c msg errs ↔ x ∈ errs ∨ (c ∧ x = msg).
Proof.
  unfold Validator.pushIf. destruct c.
  - rewrite elem_of_app, list_elem_of_singleton. cbn. tauto.
  - cbn. tauto.
Qed.

Lemma pushIf_nil (c : bool) msg errs :
  Validator.pushIf c msg errs = [] ↔ errs = [] ∧ c = false.
Proof.
  unfold Validator.pushIf. destruct c.
  - split; [|by intros [_ ?]]. by intros [_ [=]]%app_eq_nil.
  - tauto.
Qed.

Lemma allowedChars_test_app a b :
  Validator.allowedChars_test (a +:+ b) =
  Validator.allowedChars_test a && Validator.allowedChars_test b.
Proof.
  induction a as [|c a IH]; [done|].
  rewrite app_String_cons. cbn [Validator.allowedChars_test].
  by rewrite IH, andb_assoc.
Qed.

Lemma allowedChars_test_join sep l :
  Validator.allowedChars_test sep = true →
  Validator.allowedChars_test (join sep l) =
  forallb Validator.allowedChars_test l.
Proof.
  intros Hsep. induction l as [|x l IH]; [done|].
  destruct l as [|y l]; [cbn; by rewrite andb_true_r|].
  rewrite join_cons_cons, !allowedChars_test_app, Hsep, IH. done.
Qed.

Lemma allowedChars_test_rawMechanism m :
  Validator.allowedChars_test (Validator.rawMechanism m) =
  bool_decide (fieldsAllowed m).
Proof.
  unfold Validator.rawMechanism. rewrite !allowedChars_test_app.
  assert (Validator.allowedChars_test
            (if bool_decide (qualifier m ≠ "+") then qualifier m else "")
          = Validator.allowedChars_test (qualifier m)) as ->.
  { case_bool_decide as Hq; [done|]. by rewrite Hq. }
  assert (Validator.allowedChars_test
            (if bool_decide (value m ≠ "") then ":" +:+ value m else "")
          = Validator.allowedChars_test (value m)) as ->.
  { case_bool_decide as Hv; [by rewrite allowedChars_test_app|].
    by rewrite Hv. }
  destruct (bool_decide_reflect (fieldsAllowed m)) as [(Hq & Ht & Hv)|Hn].
  - apply Is_true_true in Hq, Ht, Hv. by rewrite Hq, Ht, Hv.
  - apply not_true_is_false. intros Hall. apply Hn.
    apply andb_true_iff in Hall as [Hq Hall].
    apply andb_true_iff in Hall as [Ht Hv].
    unfold fieldsAllowed. by rewrite Hq, Ht, Hv.
Qed.

Lemma allowedChars_test_rawSpf parsedSpf :
  Validator.allowedChars_test (Validator.rawSpf parsedSpf) =
  bool_decide (Forall fieldsAllowed parsedSpf).
Proof.
  unfold Validator.rawSpf. rewrite allowedChars_test_join by done.
  induction parsedSpf as [|m l IH]; [done|].
  cbn [fmap list_fmap forallb]. rewrite IH, allowedChars_test_rawMechanism.
  destruct (bool_decide_reflect (fieldsAllowed m)) as [Hm|Hm],
           (bool_decide_reflect (Forall fieldsAllowed l)) as [Hl|Hl];
    cbn; symmetry.
  - apply bool_decide_eq_true_2. by constructor.
  - apply bool_decide_eq_false_2. by intros [_ ?]%Forall_cons.
  - apply bool_decide_eq_false_2. by intros [? _]%Forall_cons.
  - apply bool_decide_eq_false_2. by intros [? _]%Forall_cons.
Qed.

(** X6: [validateSpfSyntax] reports invalid characters exactly when some
    mechanism has a qualifier, a type or a value with a character outside
    letters, digits and [-._=:/+?~ ]: the text it rebuilds to test adds
    only [:] and spaces, which are in the class. *)
Theorem invalid_characters_reported parsedSpf :
  "The SPF record contains invalid characters."
    ∈ Validator.validateSpfSyntax parsedSpf ↔
  ∃ m, m ∈ parsedSpf ∧ ¬ fieldsAllowed m.
Proof.
  unfold Validator.validateSpfSyntax. rewrite !elem_of_pushIf.
  rewrite allowedChars_test_rawSpf.
  split.
  - intros H. 
    assert (¬ Forall fieldsAllowed parsedSpf) as Hn.
    { destruct_or!; destruct_and?; try done; try set_solver.
      by case_bool_decide. }
    apply not_Forall_Exists in Hn; [|apply _].
    apply Exists_exists in Hn as (m & ? & ?). by exists m.
  - intros (m & Hin & Hm). left. left. left. left. right. split; [|done].
    rewrite bool_decide_eq_false_2; [done|].
    rewrite Forall_forall. intros Hall. by apply Hm, Hall.
Qed.

Lemma allowedChars_test_split sep s :
  Validator.allowedChar sep = true →
  Validator.allowedChars_test s = true →
  Forall (λ piece, Validator.allowedChars_test piece = true) (split sep s).
Proof.
  intros Hsep Hs. apply Forall_forall. intros piece Hin.
  rewrite <- (join_split sep s), allowedChars_test_join in Hs
    by (cbn; by rewrite Hsep).
  rewrite forallb_forall in Hs. by apply Hs, list_elem_of_In.
Qed.

Lemma typeAndValue_fieldsAllowed q rest :
  Validator.allowedChars_test q = true →
  Validator.allowedChars_test rest = true →
  fieldsAllowed (typeAndValue q rest).
Proof.
  intros Hq Hrest.
  pose proof (allowedChars_test_split ":" rest eq_refl Hrest) as Hcolon.
  pose proof (allowedChars_test_split "=" rest eq_refl Hrest) as Hequals.
  unfold fieldsAllowed. rewrite typeAndValue_qualifier.
  split; [by apply Is_true_true|]. unfold typeAndValue.
  case_bool_decide as Hlen; cbn [type value].
  - destruct (split ":" rest) as [|first others]; [done|].
    apply Forall_cons in Hcolon as [Hfirst Hothers]. cbn [head tail default].
    split; apply Is_true_true; [done|].
    rewrite allowedChars_test_join by done. apply forallb_forall.
    intros piece Hin. rewrite Forall_forall in Hothers.
    by apply Hothers, list_elem_of_In.
  - destruct (includes "=" rest); cbn [type value].
    + destruct (split "=" rest) as [|first [|second others]]; [done| |].
      * apply Forall_cons in Hequals as [Hfirst _].
        split; apply Is_true_true; by cbn.
      * apply Forall_cons in Hequals as [Hfirst Hequals].
        apply Forall_cons in Hequals as [Hsecond _].
        split; apply Is_true_true; by cbn.
    + case_bool_decide; cbn [type value]; split; by apply Is_true_true.
Qed.

Lemma parseMechanism_fieldsAllowed token :
  Validator.allowedChars_test token = true →
  fieldsAllowed (parseMechanism token).
Proof.
  intros Htoken. destruct token as [|c rest]; cbn [parseMechanism].
  - by apply typeAndValue_fieldsAllowed.
  - case_bool_decide; [|by apply typeAndValue_fieldsAllowed].
    cbn [Validator.allowedChars_test] in Htoken.
    apply andb_true_iff in Htoken as [Hc Hrest].
    apply typeAndValue_fieldsAllowed; [|done]. cbn. by rewrite Hc.
Qed.

(** X7: a record whose characters, white space of any kind apart, are all
    in the validator's class is never reported for invalid characters once
    parsed: the parser has consumed the tabs and line breaks that the
    class itself would refuse. *)
Theorem white_space_is_not_a_character_error spfRecord :
  Validator.allowedChars_test (withoutSpaces spfRecord) = true →
  "The SPF record contains invalid characters."
    ∉ Validator.validateSpfSyntax (parsedMechanisms spfRecord).
Proof.
  intros Hrecord Hin.
  unfold Validator.validateSpfSyntax in Hin. rewrite !elem_of_pushIf in Hin.
  rewrite allowedChars_test_rawSpf in Hin.
  assert (Forall fieldsAllowed (parsedMechanisms spfRecord)) as Hall.
  { destruct (mechanismStrings_tokens spfRecord) as [_ Hconcat].
    rewrite <- Hconcat in Hrecord.
    rewrite (allowedChars_test_join "") in Hrecord by done.
    rewrite forallb_forall in Hrecord.
    unfold parsedMechanisms. apply Forall_fmap, Forall_forall.
    intros token Htoken. apply parseMechanism_fieldsAllowed, Hrecord.
    by apply list_elem_of_In. }
  rewrite (bool_decide_eq_true_2 _ Hall) in Hin.
  destruct_or!; destruct_and?; try done; set_solver.
Qed.

Lemma filter_types k (l : list Mechanism) :
  filter (λ t, t = k) (type <$> l) = type <$> filter (λ m, type m = k) l.
Proof.
  induction l as [|m l IH]; [done|]. cbn [fmap list_fmap].
  destruct (decide (type m = k)) as [Hm|Hm].
  - rewrite !filter_cons_True by done. cbn [fmap list_fmap]. by rewrite IH.
  - by rewrite !filter_cons_False.
Qed.

Lemma elem_of_types k (l : list Mechanism) :
  k ∈ type <$> l ↔ ¬ Forall (λ m, type m ≠ k) l.
Proof.
  rewrite list_elem_of_fmap. split.
  - intros (m & -> & Hin) Hall. rewrite Forall_forall in Hall. by apply (Hall m).
  - intros Hn. apply not_Forall_Exists in Hn; [|apply _].
    apply Exists_exists in Hn as (m & Hin & Hm). exists m.
    split; [|done]. symmetry. by apply dec_stable.
Qed.

Lemma validateSpfSyntax_nil parsedSpf :
  Validator.validateSpfSyntax parsedSpf = [] ↔
  (∃ v rest, parsedSpf = v :: rest ∧ isVSpf1 v) ∧
  Forall fieldsAllowed parsedSpf ∧
  length (filter (λ m, type m = "redirect") parsedSpf) ≤ 1 ∧
  length (filter (λ m, type m = "all") parsedSpf) ≤ 1 ∧
  (Forall (λ m, type m ≠ "all") parsedSpf ∨
   type <$> last parsedSpf = Some "all") ∧
  (Forall (λ m, type m ≠ "redirect") parsedSpf ∨ length parsedSpf ≤ 2).
Proof.
  unfold Validator.validateSpfSyntax. rewrite !pushIf_nil.
  rewrite allowedChars_test_rawSpf, !filter_types, !length_fmap, fmap_last.
  rewrite negb_false_iff, !andb_false_iff, orb_false_iff,
    !bool_decide_eq_false, bool_decide_eq_true, !elem_of_types.
  split.
  - intros ((((([_ [Hv Hs]] & Hchars) & Hr) & Ha) & Hlast) & Hone).
    split_and!; try done; try lia.
    + destruct parsedSpf as [|v rest]; [by destruct Hv|]. exists v, rest.
      split; [done|]. split.
      * apply dec_stable in Hv. by injection Hv.
      * apply dec_stable in Hs. by injection Hs.
    + destruct Hlast as [Hlast|Hlast]; [left|right]; by apply dec_stable.
    + destruct Hone as [Hone|Hone]; [left; by apply dec_stable|right; lia].
  - intros ((v & rest & -> & Hv & Hs) & Hchars & Hr & Ha & Hlast & Hone).
    split_and!; try done; try lia.
    + cbn. intros Hn. by apply Hn; rewrite Hv.
    + cbn. intros Hn. by apply Hn; rewrite Hs.
    + destruct Hlast as [Hlast|Hlast]; [left|right]; tauto.
    + destruct Hone as [Hone|Hone]; [left; tauto|right; lia].
Qed.

Lemma snoc_or_nil {A} (l : list A) : l = [] ∨ ∃ init x, l = init ++ [x].
Proof. destruct l as [|y l _] using rev_ind; [by left|right; eauto]. Qed.

Lemma count_zero_Forall {A} (P : A → Prop) `{!∀ x, Decision (P x)} (l : list A) :
  length (filter P l) = 0 → Forall (λ x, ¬ P x) l.
Proof.
  induction l as [|x l IH]; [done|]. destruct (decide (P x)).
  - by rewrite filter_cons_True.
  - rewrite filter_cons_False by done. by constructor; auto.
Qed.

Lemma validateSpfSyntax_shape parsedSpf :
  Validator.validateSpfSyntax parsedSpf = [] → acceptedShape parsedSpf.
Proof.
  rewrite validateSpfSyntax_nil.
  intros ((v & rest & -> & Hv) & Hchars & _ & Ha & Hlast & Hone).
  pose proof Hv as [Htv _].
  assert (type v ≠ "all") as Hva by (by rewrite Htv).
  assert (type v ≠ "redirect") as Hvr by (by rewrite Htv).
  destruct (snoc_or_nil rest) as [->|(init & x & ->)].
  { exists v, [], []. split_and!; try done; by left. }
  destruct (decide (type x = "all")) as [Hx|Hx].
  - exists v, init, [x]. split_and!; [done..| | |].
    + rewrite filter_cons_False, filter_app, filter_cons_True, length_app
        in Ha by done.
      cbn in Ha. apply (count_zero_Forall (λ m, type m = "all")). lia.
    + right. by exists x.
    + left. destruct Hone as [Hone|Hone].
      * by apply Forall_cons in Hone as [_ ?].
      * cbn in Hone. rewrite length_app in Hone. cbn in Hone.
        destruct init; [|cbn in Hone; lia].
        apply Forall_singleton. by rewrite Hx.
  - exists v, (init ++ [x]), []. rewrite app_nil_r.
    split_and!; [done..| |by left|].
    + destruct Hlast as [Hlast|Hlast].
      * by apply Forall_cons in Hlast as [_ ?].
      * rewrite app_comm_cons, last_snoc in Hlast. by injection Hlast.
    + destruct Hone as [Hone|Hone].
      * left. by apply Forall_cons in Hone as [_ ?].
      * cbn in Hone. rewrite length_app in Hone. cbn in Hone.
        destruct init; [|cbn in Hone; lia].
        destruct (decide (type x = "redirect")) as [Hr|Hr].
        -- right. by exists x.
        -- left. by apply Forall_singleton.
Qed.

(** X8: [validateSpfSyntax] returns no message exactly for the records
    that start with [v=spf1], hold at most one [all] and hold it last,
    hold a [redirect] only as the single mechanism after the version, and
    are written in the allowed characters. Nothing else is looked at: not
    the mechanism types, not a second [v=spf1]. *)
Theorem empty_syntax_report parsedSpf :
  Validator.validateSpfSyntax parsedSpf = [] ↔
  acceptedShape parsedSpf ∧ Forall fieldsAllowed parsedSpf.
Proof.
  split.
  - intros Hnil. split; [by apply validateSpfSyntax_shape|].
    by apply validateSpfSyntax_nil in Hnil as (_ & ? & _).
  - rewrite validateSpfSyntax_nil.
    intros [(v & body & al & -> & Hv & Hbody & Hal & Hred) Hchars].
    pose proof Hv as [Htv _].
    assert (type v ≠ "all") as Hva by (by rewrite Htv).
    assert (type v ≠ "redirect") as Hvr by (by rewrite Htv).
    split_and!; [by exists v, (body ++ al)|done|..].
    + rewrite filter_cons_False by done.
      destruct Hred as [Hred|(r & -> & -> & Hr)].
      * rewrite (filter_Forall_nil (λ m, type m = "redirect")) by done.
        cbn. lia.
      * by rewrite app_nil_r, filter_cons_True.
    + rewrite filter_cons_False, filter_app, length_app by done.
      rewrite (filter_Forall_nil (λ m, type m = "all") body) by done.
      destruct Hal as [->|(a & -> & Ha)]; [cbn; lia|].
      by rewrite filter_cons_True.
    + destruct Hal as [->|(a & -> & Ha)].
      * left. rewrite app_nil_r. by constructor.
      * right. by rewrite app_comm_cons, last_snoc; cbn; rewrite Ha.
    + destruct Hred as [Hred|(r & -> & -> & Hr)]; [left; by constructor|].
      right. cbn. lia.
Qed.

(** ** The callers: verifySpf and the command line *)

Section CallerFacts.

Context {World : Type}.
Variable resolveTxt : string → World → TxtAnswer * World.

Lemma parseSpf_resolved records first others :
  Forall (λ record, startsWith "v=spf1" record) records →
  records = first :: others →
  parseSpf first = Normal (parsedMechanisms first).
Proof.
  intros Hall ->. apply Forall_cons in Hall as [Hfirst _].
  by apply parseSpf_nonempty, startsWith_nonempty.
Qed.

Lemma resolve_first domain (e : Env World) :
  resolveSpfTxtRecord resolveTxt domain 0 e =
  Some (match (resolveTxt domain (world e)).1 with
        | RejectedNullish reason => Throw (typeErrorMessage reason "code")
        | answer => Normal (spfRecordsOf answer, 1)
        end,
        mkEnv (resolveTxt domain (world e)).2 (queries e ++ [domain])).
Proof.
  destruct (resolveTxt domain (world e)) as [[records|code|reason] w]
    eqn:Hanswer.
  - by apply resolve_resolved; [unfold MAX_DNS_LOOKUPS; lia|].
  - by eapply resolve_rejected; [unfold MAX_DNS_LOOKUPS; lia|].
  - by apply resolve_nullish; [unfold MAX_DNS_LOOKUPS; lia|].
Qed.

Lemma spfRecordsOf_spf answer :
  Forall (λ record, startsWith "v=spf1" record) (spfRecordsOf answer).
Proof.
  destruct answer as [records|code|reason]; [|done..].
  apply Forall_forall. intros x Hx. by apply list_elem_of_filter in Hx as [? _].
Qed.

(** The run of [verifySpf] from its first lookup on. *)
Lemma verifySpf_after_lookup domain (e e1 : Env World) spfRecords :
  resolveSpfTxtRecord resolveTxt domain 0 e = Some (Normal (spfRecords, 1), e1) →
  match spfRecords with
  | [] =>
      verifySpf resolveTxt domain e =
      Some (Normal (Validator.mkResults false 1 false
                      ["No SPF record found for " +:+ domain +:+ "."] []),
            e1)
  | first :: others =>
      ∃ c e2 new,
        recursiveFlattenSpf resolveTxt (parsedMechanisms first) domain 1 e1
          = Some (c, e2) ∧
        queries e2 = queries e1 ++ new ∧
        1 + length new ≤ MAX_DNS_LOOKUPS ∧
        match c with
        | Normal (flattened, n) =>
            n = 1 + length new ∧
            verifySpf resolveTxt domain e =
            Some (Normal (Validator.mkResults true n false
                            (Validator.pushIf
                               (bool_decide (1 < length spfRecords))
                               ("Multiple SPF records found for " +:+ domain +:+
                                ". Only one is allowed.") [])
                            (Validator.validateSpfSyntax
                               (parsedMechanisms first))),
                  e2)
        | Throw message =>
            thrownByCatch resolveTxt message ∧
            verifySpf resolveTxt domain e = Some (Throw message, e2)
        end
  end.
Proof.
  intros Hres.
  pose proof (resolve_records_spf resolveTxt _ _ _ _ _ _ Hres) as Hspf.
  destruct spfRecords as [|first others] eqn:Hrecords.
  { unfold verifySpf, bind. by rewrite Hres. }
  destruct (recursiveFlattenSpf_accounted resolveTxt
              (parsedMechanisms first) domain 1 e1)
    as (c & e2 & new & Hrun & Hq2 & Hmax & Hc).
  exists c, e2, new. split_and!; [done..|unfold MAX_DNS_LOOKUPS in *; lia|].
  destruct c as [[flattened n]|message].
  - destruct Hc as [Hn _]. cbn [snd] in Hn. split; [done|].
    unfold verifySpf, bind, liftCompletion. rewrite Hres.
    rewrite (parseSpf_resolved _ first others Hspf eq_refl), Hrun.
    rewrite bool_decide_eq_false_2; [done|].
    unfold Validator.MAX_DNS_LOOKUPS, MAX_DNS_LOOKUPS in *. lia.
  - split; [done|].
    unfold verifySpf, bind, liftCompletion. rewrite Hres.
    by rewrite (parseSpf_resolved _ first others Hspf eq_refl), Hrun.
Qed.

Lemma verifySpf_throws_first domain (e e1 : Env World) message :
  resolveSpfTxtRecord resolveTxt domain 0 e = Some (Throw message, e1) →
  verifySpf resolveTxt domain e = Some (Throw message, e1).
Proof. intros Hres. unfold verifySpf, bind. by rewrite Hres. Qed.



Lemma splitSpaces_space s :
  headIsSpace s = true → ∃ pieces, splitSpaces s = "" :: pieces.
Proof.
  induction s as [|c s IH]; [done|]. intros Hc. cbn [headIsSpace] in Hc.
  cbn [splitSpaces]. rewrite Hc.
  destruct (headIsSpace s); [by apply IH|by eexists].
Qed.

Lemma parsedMechanisms_version first :
  first = "v=spf1" ∨
  (∃ c rest, isSpace c = true ∧ first = "v=spf1" +:+ String c rest) →
  ∃ others, parsedMechanisms first = mkMechanism "+" "v" "spf1" :: others.
Proof.
  intros [->|(c & rest & Hc & ->)]; [by exists []|].
  unfold parsedMechanisms, mechanismStrings.
  rewrite splitSpaces_token by done.
  destruct (splitSpaces_space (String c rest) Hc) as (pieces & ->).
  change ("v=spf1" +:+ "") with "v=spf1".
  rewrite filter_cons_True by (cbn; lia). by eexists.
Qed.

Lemma flattenedSpfString_version flattened :
  ∃ rest,
    flattenedSpfString (mkMechanism "+" "v" "spf1" :: flattened)
    = "v:spf1" +:+ rest.
Proof.
  unfold flattenedSpfString. destruct flattened as [|m flattened].
  - by exists "".
  - cbn [fmap list_fmap]. rewrite join_cons_cons.
    change (mechanismText (mkMechanism "+" "v" "spf1")) with "v:spf1".
    by eexists.
Qed.

Lemma resolve_first_returns domain (e : Env World) :
  rejectsWithErrorObject resolveTxt →
  resolveSpfTxtRecord resolveTxt domain 0 e =
  Some (Normal (spfRecordsOf (resolveTxt domain (world e)).1, 1),
        mkEnv (resolveTxt domain (world e)).2 (queries e ++ [domain])).
Proof.
  intros Hgood. rewrite resolve_first.
  destruct (resolveTxt domain (world e)) as [[records|code|reason] w]
    eqn:Hanswer; [done..|].
  by destruct (Hgood _ _ _ _ Hanswer).
Qed.


(** X13: with such a resolver, when the domain's first SPF record is
    [v=spf1] alone or followed by white space, the text [runFlattening]
    produces starts with [v:spf1]: the version is written like any
    mechanism with a value, with a colon. *)
Theorem runFlattening_writes_colon domain (e : Env World) first others :
  rejectsWithErrorObject resolveTxt →
  spfRecordsOf (resolveTxt domain (world e)).1 = first :: others →
  first = "v=spf1" ∨
  (∃ c rest, isSpace c = true ∧ first = "v=spf1" +:+ String c rest) →
  ∃ rest e',
    runFlattening resolveTxt domain e
    = Some (Normal (Text ("v:spf1" +:+ rest)), e').
Proof.
  intros Hgood Hrecords Hfirst.
  unfold runFlattening, bind at 1.
  rewrite (resolve_first_returns _ _ Hgood), Hrecords.
  destruct (parsedMechanisms_version first Hfirst) as (parsed & Hparsed).
  rewrite parseSpf_nonempty
    by (destruct Hfirst as [->|(c & rest & _ & ->)]; done).
  unfold bind at 2, liftCompletion. set (e1 := mkEnv _ _).
  destruct (recursiveFlattenSpf_returns resolveTxt (parsedMechanisms first)
              domain 0 e1 Hgood) as ([flattened n] & e' & _ & Hrun & _).
  apply flattenSpf_eq in Hrun.
  rewrite Hparsed, find_isVSpf1_here in Hrun by done.
  unfold bind. rewrite Hparsed, Hrun.
  destruct (flattenedSpfString_version flattened) as (rest & ->).
  by exists rest, e'.
Qed.

Section Exhausted.

Variable self : list Mechanism → string → nat → Run World Flattened.

Lemma forMechanisms_exhausted parsedSpf st e :
  MAX_DNS_LOOKUPS ≤ dnsLookups st →
  forMechanisms resolveTxt self parsedSpf st e =
  Some (Normal
          (if bool_decide (Forall (λ m, type m ≠ "redirect") parsedSpf) then
             inl (mkLocals
                    (flattenedMechanisms st ++
                     filter pushedVerbatim
                       (filter (λ m, type m ≠ "include") parsedSpf))
                    (dnsLookups st)
                    (ownAllOr (finalAllMechanism st) parsedSpf))
           else inr ([], dnsLookups st)), e).
Proof.
  revert st. induction parsedSpf as [|m rest IH]; intros st Hn.
  - cbn [forMechanisms]. rewrite !filter_nil, app_nil_r. by destruct st.
  - destruct (decide (type m = "redirect")) as [Hr|Hr].
    { cbn [forMechanisms].
      rewrite decide_False, decide_True by (by rewrite ?Hr).
      unfold bind. rewrite resolve_at_ceiling by done.
      rewrite bool_decide_eq_false_2; [done|]. by intros [? _]%Forall_cons. }
    assert (bool_decide (Forall (λ m, type m ≠ "redirect") (m :: rest))
            = bool_decide (Forall (λ m, type m ≠ "redirect") rest)) as ->.
    { apply bool_decide_ext. rewrite Forall_cons. tauto. }
    destruct (decide (type m = "include")) as [Hi|Hi].
    { rewrite forMechanisms_include_exhausted by done.
      rewrite (filter_cons_False (λ m, type m ≠ "include")) by tauto.
      rewrite ownAllOr_cons_other by (by rewrite Hi). by apply IH. }
    rewrite (filter_cons_True (λ m, type m ≠ "include")) by done.
    cbn [forMechanisms]. repeat case_decide; try done.
    + rewrite filter_cons_False by (by intros [? _]).
      rewrite ownAllOr_cons_other by congruence. by apply IH.
    + rewrite IH by done. cbn [flattenedMechanisms dnsLookups finalAllMechanism].
      rewrite filter_cons_False by (by intros [_ ?]).
      by rewrite ownAllOr_cons_all.
    + rewrite IH by done. cbn [flattenedMechanisms dnsLookups finalAllMechanism].
      rewrite filter_cons_True by done.
      rewrite ownAllOr_cons_other by done. by rewrite <- app_assoc.
Qed.

End Exhausted.

(** X14: entered with the budget spent, [recursiveFlattenSpf] issues no
    query and leaves the count and the resolver alone. A record with a
    [redirect] anywhere in it flattens to nothing; any other record
    flattens as the plain record it is once its [include]s are taken
    out. *)
Theorem exhausted_budget_drops_lookups parsedSpf domain n (e : Env World) :
  MAX_DNS_LOOKUPS ≤ n →
  recursiveFlattenSpf resolveTxt parsedSpf domain n e =
  Some (Normal
          (if bool_decide (Forall (λ m, type m ≠ "redirect") parsedSpf)
           then plainBody (filter (λ m, type m ≠ "include") parsedSpf)
           else [], n), e).
Proof.
  intros Hn. rewrite recursiveFlattenSpf_unfold. unfold flattenLevel, bind.
  rewrite forMechanisms_exhausted by done.
  case_bool_decide as Hred; [|done].
  cbn [flattenedMechanisms dnsLookups finalAllMechanism app]. unfold ret.
  do 2 f_equal.
  set (kept := filter (λ m, type m ≠ "include") parsedSpf).
  assert (ownAllOr None parsedSpf = ownAll kept) as ->.
  { unfold ownAllOr, ownAll, kept. rewrite list_filter_filter.
    replace (filter (λ m, type m = "all" ∧ type m ≠ "include") parsedSpf)
      with (filter (λ m, type m = "all") parsedSpf);
      [by destruct (last _)|].
    apply list_filter_iff. intros m. split; [|tauto]. intros Hm.
    by rewrite Hm. }
  unfold finishLevel, plainBody.
  cbn [flattenedMechanisms dnsLookups finalAllMechanism].
  rewrite removeDuplicates_keepFirst.
  destruct (ownAll kept) as [a|]; [|done].
  rewrite (filter_Forall_id (λ m, type m ≠ "all")); [done|].
  apply Forall_keepFirst, Forall_forall. intros m Hm.
  by apply list_elem_of_filter in Hm as [[_ ?] _].
Qed.

(** X9: a record the validator accepts, with no [include] or [redirect],
    no mechanism twice and no further [v], is returned by [flattenSpf] as
    it is, and without a lookup. *)
Theorem accepted_plain_record_is_kept parsedSpf domain (e : Env World) :
  Validator.validateSpfSyntax parsedSpf = [] →
  Forall resolvesNothing parsedSpf →
  NoDup parsedSpf →
  Forall (λ m, type m ≠ "v") (tail parsedSpf) →
  flattenSpf resolveTxt parsedSpf domain e = Some (Normal parsedSpf, e).
Proof.
  intros Hvalid Hno Hdup Hv. apply flattenSpf_plain_order; [done|].
  apply validateSpfSyntax_shape in Hvalid
    as (v & body & al & -> & Hversion & Hbody & Hal & _).
  cbn [tail] in Hv. apply Forall_app in Hv as [Hv _].
  apply NoDup_cons in Hdup as [_ Hdup]. apply NoDup_app in Hdup as [Hdup _].
  exists [v], body, al. split_and!; [done| |  |done..].
  - right. by exists v.
  - rewrite Forall_forall in Hv, Hbody. apply Forall_forall. intros m Hm.
    split; [by apply Hv|by apply Hbody].
Qed.

End CallerFacts.

(** ** Instances of the properties above *)

Lemma written_record_reads_back_witness :
  Forall readsBack
    [mkMechanism "+" "v" "spf1"; mkMechanism "+" "ip4" "1.2.3.4";
     mkMechanism "-" "mx" ""; mkMechanism "~" "all" "all"] ∧
  parsedMechanisms "v:spf1 ip4:1.2.3.4 -mx ~all"
  = [mkMechanism "+" "v" "spf1"; mkMechanism "+" "ip4" "1.2.3.4";
     mkMechanism "-" "mx" ""; mkMechanism "~" "all" "all"].
Proof.
  assert (Forall readsBack
            [mkMechanism "+" "v" "spf1"; mkMechanism "+" "ip4" "1.2.3.4";
             mkMechanism "-" "mx" ""; mkMechanism "~" "all" "all"]) as Hreads
    by (apply (bool_decide_unpack _); vm_compute; exact I).
  split; [exact Hreads|].
  exact (proj1 (written_record_reads_back _ Hreads)).
Defined.

(** A tab and a line break between the mechanisms. *)
Lemma white_space_is_not_a_character_error_witness :
  Validator.allowedChars_test
    (withoutSpaces ("v=spf1" +:+ String (ascii_of_nat 9)
                      ("ip4:1.2.3.4" +:+ String (ascii_of_nat 10) "~all")))
  = true ∧
  "The SPF record contains invalid characters."
    ∉ Validator.validateSpfSyntax
        (parsedMechanisms ("v=spf1" +:+ String (ascii_of_nat 9)
                             ("ip4:1.2.3.4" +:+ String (ascii_of_nat 10) "~all"))).
Proof.
  split; [vm_compute; reflexivity|].
  apply white_space_is_not_a_character_error. vm_compute. reflexivity.
Defined.

(** The converse fails: what [parseSpf] drops is not tested. *)
Example character_check_misses_dropped_text :
  Validator.allowedChars_test (withoutSpaces "v=spf1 redirect=a=b$") = false ∧
  Validator.validateSpfSyntax (parsedMechanisms "v=spf1 redirect=a=b$") = [].
Proof. split; vm_compute; reflexivity. Qed.

Lemma accepted_plain_record_is_kept_witness :
  Validator.validateSpfSyntax
    [mkMechanism "+" "v" "spf1"; mkMechanism "+" "ip4" "1.2.3.4";
     mkMechanism "~" "all" "all"] = [] ∧
  flattenSpf (stubResolver [])
    [mkMechanism "+" "v" "spf1"; mkMechanism "+" "ip4" "1.2.3.4";
     mkMechanism "~" "all" "all"] "example.com" noQueries
  = Some (Normal [mkMechanism "+" "v" "spf1"; mkMechanism "+" "ip4" "1.2.3.4";
                  mkMechanism "~" "all" "all"], noQueries).
Proof.
  split; [vm_compute; reflexivity|].
  apply accepted_plain_record_is_kept.
  - vm_compute. reflexivity.
  - repeat constructor; discriminate.
  - apply (bool_decide_unpack _). vm_compute. exact I.
  - repeat constructor; discriminate.
Defined.

(** A stubbed resolver rejects as its table does, and with an error
    object for the hostnames the table leaves out. *)
Lemma stubResolver_rejectsWithErrorObject table :
  Forall (λ entry, ∀ reason, entry.2 ≠ RejectedNullish reason) table →
  rejectsWithErrorObject (stubResolver table).
Proof.
  intros Htable hostname w reason w' Hanswer. unfold stubResolver in Hanswer.
  destruct (List.find _ table) as [entry|] eqn:Hfind; [|done].
  apply List.find_some in Hfind as [Hin _]. apply list_elem_of_In in Hin.
  rewrite Forall_forall in Htable. injection Hanswer as Hentry _.
  by apply (Htable entry Hin reason).
Qed.


Lemma runFlattening_writes_colon_witness :
  rejectsWithErrorObject (stubResolver includedTable) ∧
  spfRecordsOf (stubResolver includedTable "included.com" tt).1
    = ["v=spf1 ip4:5.6.7.8 -all"] ∧
  ∃ rest e',
    runFlattening (stubResolver includedTable) "included.com" noQueries
    = Some (Normal (Text ("v:spf1" +:+ rest)), e').
Proof.
  assert (rejectsWithErrorObject (stubResolver includedTable)) as Hgood
    by (apply stubResolver_rejectsWithErrorObject; by repeat constructor).
  split_and!; [exact Hgood|reflexivity|].
  apply (runFlattening_writes_colon (stubResolver includedTable) "included.com"
           noQueries "v=spf1 ip4:5.6.7.8 -all" [] Hgood); [reflexivity|].
  right. exists " "%char, "ip4:5.6.7.8 -all". split; reflexivity.
Defined.

Lemma exhausted_budget_drops_lookups_witness :
  MAX_DNS_LOOKUPS ≤ 10 ∧
  recursiveFlattenSpf (stubResolver includedTable)
    (parsedMechanisms "v=spf1 include:included.com ip4:1.2.3.4 ~all")
    "example.com" 10 noQueries
  = Some (Normal ([mkMechanism "+" "ip4" "1.2.3.4"; mkMechanism "~" "all" "all"],
                  10), noQueries).
Proof.
  split; [reflexivity|].
  exact (exhausted_budget_drops_lookups (stubResolver includedTable)
           (parsedMechanisms "v=spf1 include:included.com ip4:1.2.3.4 ~all")
           "example.com" 10 noQueries (le_n 10)).
Defined.

(** A second pass can still move an [all] that an include brought in. *)
Example second_pass_moves_all :
  flattenText includedTable "v=spf1 include:included.com ip4:1.2.3.4"
  = Some (Normal [mkMechanism "+" "v" "spf1"; mkMechanism "+" "ip4" "5.6.7.8";
                  mkMechanism "-" "all" "all"; mkMechanism "+" "ip4" "1.2.3.4"],
          mkEnv tt ["included.com"]) ∧
  flattenSpf (stubResolver [])
    [mkMechanism "+" "v" "spf1"; mkMechanism "+" "ip4" "5.6.7.8";
     mkMechanism "-" "all" "all"; mkMechanism "+" "ip4" "1.2.3.4"]
    "example.com" noQueries
  = Some (Normal [mkMechanism "+" "v" "spf1"; mkMechanism "+" "ip4" "5.6.7.8";
                  mkMechanism "+" "ip4" "1.2.3.4"; mkMechanism "-" "all" "all"],
          noQueries).
Proof. split; vm_compute; reflexivity. Qed.

(** ** Where the stated properties fail *)

(** C3 as stated fails twice. A level that holds its own [-all] and then a
    [redirect] returns the target's content, which here ends in [?all]; and
    an outer record with no [all] whose include brings [-all] keeps that
    [-all] where it was pushed, here before [ip4:1.2.3.4]. *)
Lemma own_all_precedence_counterexample :
  ownAll (parsedMechanisms "v=spf1 -all redirect=r.example")
    = Some (mkMechanism "-" "all" "all") ∧
  flattenSpf (stubResolver [("r.example", Resolved [["v=spf1 ?all"]])])
    (parsedMechanisms "v=spf1 -all redirect=r.example") "example.com" noQueries
    = Some (Normal [mkMechanism "+" "v" "spf1"; mkMechanism "?" "all" "all"],
            mkEnv tt ["r.example"]) ∧
  ownAll (parsedMechanisms "v=spf1 include:included.com ip4:1.2.3.4") = None ∧
  flattenSpf (stubResolver [("included.com", Resolved [["v=spf1 -all"]])])
    (parsedMechanisms "v=spf1 include:included.com ip4:1.2.3.4")
    "example.com" noQueries
    = Some (Normal [mkMechanism "+" "v" "spf1"; mkMechanism "-" "all" "all";
                    mkMechanism "+" "ip4" "1.2.3.4"],
            mkEnv tt ["included.com"]).
Proof. split_and!; vm_compute; reflexivity. Qed.

(** C4 as stated fails on a repeated mechanism, on an [all] that is not
    last, and on a [v=spf1] that is not first: none comes back unchanged. *)
Lemma plain_record_counterexample :
  parseSpf "v=spf1 ip4:1.2.3.4 ip4:1.2.3.4 ~all"
    = Normal [mkMechanism "+" "v" "spf1"; mkMechanism "+" "ip4" "1.2.3.4";
              mkMechanism "+" "ip4" "1.2.3.4"; mkMechanism "~" "all" "all"] ∧
  flattenText [] "v=spf1 ip4:1.2.3.4 ip4:1.2.3.4 ~all"
    = Some (Normal [mkMechanism "+" "v" "spf1"; mkMechanism "+" "ip4" "1.2.3.4";
                    mkMechanism "~" "all" "all"], noQueries) ∧
  parseSpf "v=spf1 ~all a"
    = Normal [mkMechanism "+" "v" "spf1"; mkMechanism "~" "all" "all";
              mkMechanism "+" "a" ""] ∧
  flattenText [] "v=spf1 ~all a"
    = Some (Normal [mkMechanism "+" "v" "spf1"; mkMechanism "+" "a" "";
                    mkMechanism "~" "all" "all"], noQueries) ∧
  parseSpf "a v=spf1"
    = Normal [mkMechanism "+" "a" ""; mkMechanism "+" "v" "spf1"] ∧
  flattenText [] "a v=spf1"
    = Some (Normal [mkMechanism "+" "v" "spf1"; mkMechanism "+" "a" ""],
            noQueries).
Proof. split_and!; vm_compute; reflexivity. Qed.

(** C6 as stated fails on a record whose [v] mechanism has another value
    than [spf1]: it is dropped with the others and none is put back. *)
Lemma version_reinstated_counterexample :
  parseSpf "v=spf2 a"
    = Normal [mkMechanism "+" "v" "spf2"; mkMechanism "+" "a" ""] ∧
  flattenText [] "v=spf2 a"
    = Some (Normal [mkMechanism "+" "a" ""], noQueries).
Proof. split; vm_compute; reflexivity. Qed.
